(** * object_pool: a shallow embedding of [object_pool.py]

    The module defines a metaclass [SingletonMetaPoolRegistry] holding one
    dictionary from class names to pools, the class [ObjectPool] whose
    instances own a FIFO queue of [(member, member_stats)] pairs, and the
    context manager [ObjectPool.Executor].

    Python objects with identity (pools, pooled members) are references into
    an explicit store; the stats dictionaries are records; every call of
    [datetime.datetime.now()] is a reading of an explicit clock; calls of the
    user supplied hooks and [print] are recorded in the world.

    Conventions of the model:
    - a stats dictionary is passed by value: [__update_member_stats] changes
      the dictionary in place and returns it, here it returns the changed
      record, and client code is taken not to write into the dictionary it
      was lent;
    - the hooks return: a create hook gives an object not seen before, a
      check hook is a function of the member and the stats it is given, a
      cleanup hook only leaves a trace in the record of calls;
    - the queue is used by one thread, so [Queue.get] never waits when
      [qsize] has just been found positive. *)

From Stdlib Require Import ZArith Lia.
From stdpp Require Import gmap strings list fin_maps.

Local Open Scope Z_scope.

(** ** Values *)

(** Exceptions the module can raise.  [Exception] is the one raised by
    [__init__]; [TypeError] and [KeyError] come from a stats dictionary
    lacking ['count']; [Blocked] stands for [Queue.get()] on an empty queue
    (which would wait forever in a sequential program); [ReferenceError]
    and [OutOfFuel] are only produced by the model, for a reference that is
    not in the store and for a loop cut short; [UserError] is an exception
    raised by client code inside a [with] block. *)
Inductive Exn :=
| Exception (msg : string)
| TypeError
| KeyError
| Blocked
| ReferenceError
| OutOfFuel
| UserError (tag : nat).

(** A [datetime] is a number of microseconds; [timedelta(seconds=n)] is
    [n * 10^6] of them. *)
Definition timedelta (seconds : Z) : Z := seconds * 1000000.

(** The wall clock: the value the next call of [now()] returns, and the
    amounts by which it advances after each of the following calls (it stays
    still once the list is used up). *)
Record Clock := { clock_now : Z; clock_ticks : list Z }.

Definition read_clock (c : Clock) : Z * Clock :=
  (clock_now c,
   match clock_ticks c with
   | [] => c
   | d :: ds => {| clock_now := clock_now c + d; clock_ticks := ds |}
   end).

(** The stats dictionary of a member.  The keys ['count'] and ['created_at']
    are read with [dict.get(key, None)], so they may be absent. *)
Record Stats := {
  count : option Z;
  new : bool;
  created_at : option Z;
  last_used : Z
}.

(** A class handed to the pool: its [__name__], an identity (two distinct
    classes may carry the same name) and the optional attributes [create],
    [check_invalid] and [cleanup] looked up with [getattr].  A create or
    cleanup callable is named by a number; a check callable is its
    result as a function of the member and the stats. *)
Inductive Maker :=
| ByCreateFunc (h : nat)
| ByKlass (class_name : string) (class_id : nat).

Record Member := { oid : nat; maker : Maker }.

Definition CheckFn : Type := Member -> Stats -> bool.

Record Klass := {
  klass_name : string;
  klass_id : nat;
  klass_create : option nat;
  klass_check_invalid : option CheckFn;
  klass_cleanup : option nat
}.

(** Calls of the external collaborators, in the order they happen. *)
Inductive Event :=
| EvNew (m : Member)
| EvCheck (m : Member) (s : Stats) (r : bool)
| EvCleanup (h : nat) (m : Member) (s : Stats).

(** The lines written by [print]. *)
Inductive Diag :=
| UnlimitedMembers (class_name : string)
| NeverExpires (class_name : string)
| CreatedOnRequest
| ItemsCreated (n : Z)
| ExpiredByCount
| ExpiredByTime.

(** The attributes of an [ObjectPool] instance; [pool_queue] is the
    [Queue()] held in [self.__pool], oldest entry first. *)
Record Pool := {
  klass : Klass;
  max_pool_object : Z;
  max_reusable_count : Z;
  expire_in_secs : Z;
  pre_check : bool;
  post_check : bool;
  pool_create_func : option nat;
  pool_check_func : option CheckFn;
  pool_cleanup_func : option nat;
  pool_queue : list (Member * Stats)
}.

Definition with_queue (q : list (Member * Stats)) (p : Pool) : Pool :=
  {| klass := klass p;
     max_pool_object := max_pool_object p;
     max_reusable_count := max_reusable_count p;
     expire_in_secs := expire_in_secs p;
     pre_check := pre_check p;
     post_check := post_check p;
     pool_create_func := pool_create_func p;
     pool_check_func := pool_check_func p;
     pool_cleanup_func := pool_cleanup_func p;
     pool_queue := q |}.

(** ** The world *)

Record World := {
  clock : Clock;
  next_oid : nat;
  next_pid : nat;
  pools : gmap nat Pool;
  registry : gmap string nat;
  calls : list Event;
  stdout : list Diag
}.

Definition set_clock (c : Clock) (w : World) : World :=
  {| clock := c; next_oid := next_oid w; next_pid := next_pid w;
     pools := pools w; registry := registry w; calls := calls w;
     stdout := stdout w |}.

Definition set_next_oid (n : nat) (w : World) : World :=
  {| clock := clock w; next_oid := n; next_pid := next_pid w;
     pools := pools w; registry := registry w; calls := calls w;
     stdout := stdout w |}.

Definition set_next_pid (n : nat) (w : World) : World :=
  {| clock := clock w; next_oid := next_oid w; next_pid := n;
     pools := pools w; registry := registry w; calls := calls w;
     stdout := stdout w |}.

Definition set_pools (ps : gmap nat Pool) (w : World) : World :=
  {| clock := clock w; next_oid := next_oid w; next_pid := next_pid w;
     pools := ps; registry := registry w; calls := calls w;
     stdout := stdout w |}.

Definition set_registry (r : gmap string nat) (w : World) : World :=
  {| clock := clock w; next_oid := next_oid w; next_pid := next_pid w;
     pools := pools w; registry := r; calls := calls w;
     stdout := stdout w |}.

Definition set_calls (l : list Event) (w : World) : World :=
  {| clock := clock w; next_oid := next_oid w; next_pid := next_pid w;
     pools := pools w; registry := registry w; calls := l;
     stdout := stdout w |}.

Definition set_stdout (l : list Diag) (w : World) : World :=
  {| clock := clock w; next_oid := next_oid w; next_pid := next_pid w;
     pools := pools w; registry := registry w; calls := calls w;
     stdout := l |}.

(** ** A state and exception monad

    A computation transforms the world and either returns a value or raises;
    what it did before raising stays done. *)

Inductive Res (A : Type) :=
| Ok (a : A)
| Raise (e : Exn).
Arguments Ok {A} a.
Arguments Raise {A} e.

Definition M (A : Type) : Type := World -> Res A * World.

Definition ret {A} (a : A) : M A := fun w => (Ok a, w).

Definition raise {A} (e : Exn) : M A := fun w => (Raise e, w).

Definition bind {A B} (c : M A) (k : A -> M B) : M B :=
  fun w =>
    match c w with
    | (Ok a, w1) => k a w1
    | (Raise e, w1) => (Raise e, w1)
    end.

Notation "'do' x <- c ; k" := (bind c (fun x => k))
  (at level 10, x pattern, c at level 100, k at level 200).
Notation "c ;; k" := (bind c (fun _ => k))
  (at level 100, k at level 200, right associativity).

(** [datetime.datetime.now()] *)
Definition datetime_now : M Z :=
  fun w => let (t, c) := read_clock (clock w) in (Ok t, set_clock c w).

(** [print(...)] *)
Definition print (d : Diag) : M unit :=
  fun w => (Ok tt, set_stdout (stdout w ++ [d]) w).

Definition record_call (e : Event) : M unit :=
  fun w => (Ok tt, set_calls (calls w ++ [e]) w).

(** Reading the attributes of [self]. *)
Definition self (pid : nat) : M Pool :=
  fun w =>
    match pools w !! pid with
    | Some p => (Ok p, w)
    | None => (Raise ReferenceError, w)
    end.

Definition set_self_queue (pid : nat) (q : list (Member * Stats)) : M unit :=
  fun w =>
    match pools w !! pid with
    | Some p => (Ok tt, set_pools (<[pid := with_queue q p]> (pools w)) w)
    | None => (Raise ReferenceError, w)
    end.

(** [Queue.qsize], [Queue.get] and [Queue.put] on [self.__pool]. *)
Definition qsize (pid : nat) : M Z :=
  do p <- self pid; ret (Z.of_nat (length (pool_queue p))).

Definition queue_get (pid : nat) : M (Member * Stats) :=
  do p <- self pid;
  match pool_queue p with
  | [] => raise Blocked
  | x :: q => set_self_queue pid q ;; ret x
  end.

Definition queue_put (pid : nat) (x : Member * Stats) : M unit :=
  do p <- self pid; set_self_queue pid (pool_queue p ++ [x]).

(** ** SingletonMetaPoolRegistry: the registry primitives *)

(** [cls.__pool_registry.pop(klass.__name__, None)] *)
Definition _remove_pool (k : Klass) : M unit :=
  fun w => (Ok tt, set_registry (delete (klass_name k) (registry w)) w).

(** [base_klass.__name__ in cls.__pool_registry] *)
Definition _pool_exists (base_klass : Klass) : M bool :=
  fun w =>
    (Ok (match registry w !! klass_name base_klass with
         | Some _ => true
         | None => false
         end), w).

(** [cls.__pool_registry[name]] and [cls.__pool_registry[name] = pid] *)
Definition registry_getitem (name : string) : M nat :=
  fun w =>
    match registry w !! name with
    | Some pid => (Ok pid, w)
    | None => (Raise KeyError, w)
    end.

Definition registry_setitem (name : string) (pid : nat) : M unit :=
  fun w => (Ok tt, set_registry (<[name := pid]> (registry w)) w).

(** ** ObjectPool *)

(** [get_pool_size] *)
Definition get_pool_size (pid : nat) : M Z := qsize pid.

(** [_get_default_stats]: the two timestamps are two readings of the
    clock, ['created_at'] first. *)
Definition _get_default_stats (is_new : bool) : M Stats :=
  do t1 <- datetime_now;
  do t2 <- datetime_now;
  ret {| count := Some 0; new := is_new;
         created_at := Some t1; last_used := t2 |}.

(** [_get_expiry_time] *)
Definition _get_expiry_time (pid : nat) (created : option Z) : M Z :=
  do p <- self pid;
  match created with
  | Some c => ret (c + timedelta (expire_in_secs p))
  | None => datetime_now
  end.

(** [max_reusable_count < count], a [TypeError] when [count] is [None]. *)
Definition int_lt_count (n : Z) (c : option Z) : M bool :=
  match c with
  | Some c => ret (n <? c)
  | None => raise TypeError
  end.

(** [_internal_invalid_check] *)
Definition _internal_invalid_check (pid : nat) (member_stats : Stats) : M bool :=
  let created := created_at member_stats in
  let cnt := count member_stats in
  do expires_at <- _get_expiry_time pid created;
  do p <- self pid;
  do by_count <-
    (if negb (max_reusable_count p =? 0)
     then int_lt_count (max_reusable_count p) cnt
     else ret false);
  if by_count then print ExpiredByCount ;; ret true
  else
    do by_time <-
      (if negb (expire_in_secs p =? 0)
       then do t <- datetime_now; ret (expires_at <? t)
       else ret false);
    if by_time then print ExpiredByTime ;; ret true
    else ret false.

(** Object construction: every call of a constructor or of the create hook
    gives an object with an identity not used before. *)
Definition new_object (mk : Maker) : M Member :=
  fun w =>
    let m := {| oid := next_oid w; maker := mk |} in
    (Ok m, set_calls (calls w ++ [EvNew m]) (set_next_oid (S (next_oid w)) w)).

(** [__create_new_instance] *)
Definition __create_new_instance (pid : nat) : M Member :=
  do p <- self pid;
  match pool_create_func p with
  | Some h => new_object (ByCreateFunc h)
  | None => new_object (ByKlass (klass_name (klass p)) (klass_id (klass p)))
  end.

(** [__member_cleanup] *)
Definition __member_cleanup (pid : nat) (member : Member) (member_stats : Stats)
  : M unit :=
  do p <- self pid;
  match pool_cleanup_func p with
  | Some h => record_call (EvCleanup h member member_stats)
  | None => ret tt
  end.

(** [__cleanup_and_get_member] *)
Definition __cleanup_and_get_member (pid : nat) (member : Member)
    (member_stats : Stats) : M (Member * Stats) :=
  __member_cleanup pid member member_stats ;;
  do member' <- __create_new_instance pid;
  do member_stats' <- _get_default_stats false;
  ret (member', member_stats').

(** [__update_member_stats]: ['count'] is looked up with
    [member_stats['count']], a [KeyError] when it is not there. *)
Definition __update_member_stats (member_stats : Stats) : M Stats :=
  match count member_stats with
  | None => raise KeyError
  | Some c =>
      do t <- datetime_now;
      ret {| count := Some (c + 1); new := false;
             created_at := created_at member_stats; last_used := t |}
  end.

(** The two assignments at the head of [__check_and_get_member] and the
    test [invalid_member or invalid_member_internal] made of them. *)
Definition judged_invalid (pid : nat) (member : Member) (member_stats : Stats)
  : M bool :=
  do p <- self pid;
  do invalid_member <-
    match pool_check_func p with
    | Some f =>
        let r := f member member_stats in
        record_call (EvCheck member member_stats r) ;; ret r
    | None => ret false
    end;
  do invalid_member_internal <- _internal_invalid_check pid member_stats;
  ret (invalid_member || invalid_member_internal).

(** [__check_and_get_member] *)
Definition __check_and_get_member (pid : nat) (member : Member)
    (member_stats : Stats) : M (Member * Stats) :=
  do invalid <- judged_invalid pid member member_stats;
  if invalid then __cleanup_and_get_member pid member member_stats
  else do member_stats' <- __update_member_stats member_stats;
       ret (member, member_stats').

(** [get_member] *)
Definition get_member (pid : nat) : M (Member * Stats) :=
  do pool_size <- get_pool_size pid;
  if pool_size =? 0 then
    do obj <- __create_new_instance pid;
    do obj_stats <- _get_default_stats true;
    ret (obj, obj_stats)
  else
    do (obj, obj_stats) <- queue_get pid;
    do p <- self pid;
    if pre_check p then __check_and_get_member pid obj obj_stats
    else ret (obj, obj_stats).

(** [queue_member] *)
Definition queue_member (pid : nat) (member : Member) (member_stats : Stats)
  : M unit :=
  do p <- self pid;
  do x <- (if post_check p then __check_and_get_member pid member member_stats
           else ret (member, member_stats));
  queue_put pid x.

(** [__create_pool]: the body of the [for] loop, run [n] times. *)
Fixpoint create_pool_loop (n : nat) (pid : nat) : M unit :=
  match n with
  | O => ret tt
  | S n' =>
      do obj <- __create_new_instance pid;
      do obj_stats <- _get_default_stats true;
      queue_put pid (obj, obj_stats) ;;
      create_pool_loop n' pid
  end.

Definition __create_pool (pid : nat) : M unit :=
  do p <- self pid; create_pool_loop (Z.to_nat (max_pool_object p)) pid.

(** The [while True] loop of [destroy]: at most [fuel] members are taken
    out. *)
Fixpoint destroy_loop (fuel : nat) (pid : nat) : M unit :=
  do size <- get_pool_size pid;
  if size =? 0 then ret tt
  else
    match fuel with
    | O => raise OutOfFuel
    | S fuel' =>
        do (member, stats) <- queue_get pid;
        __member_cleanup pid member stats ;;
        destroy_loop fuel' pid
    end.

(** [destroy]: each turn of the loop takes one member out and the hooks put
    none back, so the size of the queue on entry bounds the number of
    turns. *)
Definition destroy (pid : nat) : M unit :=
  do p <- self pid;
  let k := klass p in
  destroy_loop (length (pool_queue p)) pid ;;
  _remove_pool k.

(** [pool_exists] *)
Definition pool_exists (k : Klass) : M bool := _pool_exists k.

(** The arguments of [ObjectPool(base_klass, ...)] after [base_klass]. *)
Record Args := {
  max_members : Z;
  max_reusable : Z;
  expires : Z;
  create_func : option nat;
  check_func : option CheckFn;
  cleanup_func : option nat;
  lazy_ : bool;
  force : bool;
  pre_check_ : bool;
  post_check_ : bool
}.

(** The defaults of [SingletonMetaPoolRegistry.__call__], which passes every
    argument on to [__init__]. *)
Definition default_args : Args :=
  {| max_members := 10; max_reusable := 20; expires := 30;
     create_func := None; check_func := None; cleanup_func := None;
     lazy_ := false; force := false; pre_check_ := false;
     post_check_ := true |}.

(** [a or b] on optional callables. *)
Definition or_else {A} (a b : option A) : option A :=
  match a with
  | Some x => Some x
  | None => b
  end.

Definition setattrs (pid : nat) (p : Pool) : M unit :=
  fun w => (Ok tt, set_pools (<[pid := p]> (pools w)) w).

(** [ObjectPool.__init__] on the new object [pid]. *)
Definition __init__ (pid : nat) (k : Klass) (a : Args) : M unit :=
  let klass_create := klass_create k in
  let klass_check_invalid := klass_check_invalid k in
  let klass_cleanup := klass_cleanup k in
  setattrs pid
    {| klass := k;
       max_pool_object := max_members a;
       max_reusable_count := max_reusable a;
       expire_in_secs := expires a;
       pre_check := pre_check_ a;
       post_check := post_check_ a;
       pool_create_func := or_else (create_func a) klass_create;
       pool_check_func := or_else (check_func a) klass_check_invalid;
       pool_cleanup_func := or_else (cleanup_func a) klass_cleanup;
       pool_queue := [] |} ;;
  do p <- self pid;
  (if negb (max_pool_object p >=? 0)
   then raise (Exception "max_members should not be negative number.")
   else ret tt) ;;
  (if max_pool_object p =? 0 then print (UnlimitedMembers (klass_name k))
   else ret tt) ;;
  (if expire_in_secs p =? 0 then print (NeverExpires (klass_name k))
   else ret tt) ;;
  (if negb (lazy_ a) then __create_pool pid else print CreatedOnRequest) ;;
  do n <- get_pool_size pid;
  print (ItemsCreated n).

(** [super().__call__(...)]: a new object, then [__init__] on it.  When
    [__init__] raises nobody holds a reference to the object. *)
Definition type_call (k : Klass) (a : Args) : M nat :=
  fun w =>
    let pid := next_pid w in
    (__init__ pid k a ;; ret pid) (set_next_pid (S pid) w).

(** [SingletonMetaPoolRegistry.__call__], that is [ObjectPool(base_klass, ...)] *)
Definition __call__ (base_klass : Klass) (a : Args) : M nat :=
  (if force a then _remove_pool base_klass else ret tt) ;;
  do pool_registered <- _pool_exists base_klass;
  if pool_registered then registry_getitem (klass_name base_klass)
  else
    do k <- type_call base_klass a;
    registry_setitem (klass_name base_klass) k ;;
    ret k.

Definition ObjectPool := __call__.

(** ** ObjectPool.Executor *)

Record Executor := {
  ex_pool : nat;
  member : option Member;
  member_stats : option Stats
}.

(** [Executor.__init__] and [ObjectPool.get] *)
Definition Executor__init__ (pid : nat) : Executor :=
  {| ex_pool := pid; member := None; member_stats := None |}.

Definition get (pid : nat) : Executor := Executor__init__ pid.

(** [__enter__]: the pair is kept in the executor and returned. *)
Definition __enter__ (ex : Executor) : M (Executor * (Member * Stats)) :=
  do (m, s) <- get_member (ex_pool ex);
  ret ({| ex_pool := ex_pool ex; member := Some m; member_stats := Some s |},
       (m, s)).

(** [__exit__]: it returns [None], which the [with] statement reads as
    false.  [**None] is a [TypeError]. *)
Definition __exit__ (ex : Executor) (exc : option Exn) : M bool :=
  match member ex, member_stats ex with
  | Some m, Some s => queue_member (ex_pool ex) m s ;; ret false
  | _, _ => raise TypeError
  end.

(** [with ex as v: body] (PEP 343): [__exit__] runs on the way out, with the
    exception of the body if there is one, which is raised again unless
    [__exit__] returns true.  The result is [None] when an exception was
    swallowed. *)
Definition py_with {A} (ex : Executor) (body : Member * Stats -> M A)
  : M (option A) :=
  do (ex1, v) <- __enter__ ex;
  fun w1 =>
    match body v w1 with
    | (Ok a, w2) => (__exit__ ex1 None ;; ret (Some a)) w2
    | (Raise e, w2) =>
        (do swallow <- __exit__ ex1 (Some e);
         if swallow then ret None else raise e) w2
    end.

(** [time.sleep(seconds)] *)
Definition sleep (seconds : Z) : M unit :=
  fun w =>
    (Ok tt, set_clock {| clock_now := clock_now (clock w) + timedelta seconds;
                         clock_ticks := clock_ticks (clock w) |} w).

(** The state of the interpreter when the module has just been imported. *)
Definition start (c : Clock) : World :=
  {| clock := c; next_oid := 0; next_pid := 0; pools := ∅; registry := ∅;
     calls := []; stdout := [] |}.

(** One borrow and release with nothing done in between:
    [with pool.get() as (item, item_stats): pass], giving the pair. *)
Definition cycle (pid : nat) : M (option (Member * Stats)) :=
  py_with (get pid) (fun v => ret v).

Fixpoint cycles (n : nat) (pid : nat) : M unit :=
  match n with
  | O => ret tt
  | S n' => cycle pid ;; cycles n' pid
  end.

Definition Browser : Klass :=
  {| klass_name := "Browser"; klass_id := 0; klass_create := None;
     klass_check_invalid := None; klass_cleanup := None |}.

Definition steady (t : Z) : Clock := {| clock_now := t; clock_ticks := [] |}.

Definition pool_size_after {A} (c : M A) (pid : nat) (w : World) : option nat :=
  (λ p, length (pool_queue p)) <$> pools (snd (c w)) !! pid.

(** ** Vocabulary of the statements *)

(** The clock after one reading, and the reading after the next one. *)
Definition tick (c : Clock) : Clock := snd (read_clock c).

Definition next_reading (c : Clock) : Z := clock_now (tick c).

(** The check hook of the pool says the member is invalid. *)
Definition check_says_invalid (p : Pool) (m : Member) (s : Stats) : Prop :=
  exists f, pool_check_func p = Some f /\ f m s = true.

Definition check_verdict (p : Pool) (m : Member) (s : Stats) : bool :=
  match pool_check_func p with
  | Some f => f m s
  | None => false
  end.

(** The count [n] is over the limit of the pool. *)
Definition over_reused (p : Pool) (n : Z) : Prop :=
  max_reusable_count p <> 0 /\ n > max_reusable_count p.

(** Too old at time [t]; a member without ['created_at'] counts as too old
    at once. *)
Definition over_age_at_once (p : Pool) (s : Stats) (t : Z) : Prop :=
  expire_in_secs p <> 0 /\
  match created_at s with
  | Some t0 => t > t0 + timedelta (expire_in_secs p)
  | None => True
  end.

(** Too old as [_internal_invalid_check] finds it on clock [c]: without
    ['created_at'] the expiry time is one reading of the clock and the
    comparison is with the next. *)
Definition over_age (p : Pool) (s : Stats) (c : Clock) : Prop :=
  expire_in_secs p <> 0 /\
  match created_at s with
  | Some t0 => clock_now c > t0 + timedelta (expire_in_secs p)
  | None => next_reading c > clock_now c
  end.

(** What [_internal_invalid_check] returns on clock [c] for a count [n]. *)
Definition internal_verdict (p : Pool) (s : Stats) (n : Z) (c : Clock) : bool :=
  (negb (max_reusable_count p =? 0) && (max_reusable_count p <? n)) ||
  (negb (expire_in_secs p =? 0) &&
   match created_at s with
   | Some t0 => t0 + timedelta (expire_in_secs p) <? clock_now c
   | None => clock_now c <? next_reading c
   end).

(** [w'] differs from [w] in the clock and the printed lines only. *)
Definition quiet (w w' : World) : Prop :=
  w' = set_stdout (stdout w') (set_clock (clock w') w).

(** The member [__create_new_instance] makes in world [w]. *)
Definition maker_of (p : Pool) : Maker :=
  match pool_create_func p with
  | Some h => ByCreateFunc h
  | None => ByKlass (klass_name (klass p)) (klass_id (klass p))
  end.

Definition fabricated (p : Pool) (w : World) : Member :=
  {| oid := next_oid w; maker := maker_of p |}.

(** The stats [_get_default_stats] makes on clock [c]. *)
Definition default_stats (is_new : bool) (c : Clock) : Stats :=
  {| count := Some 0; new := is_new;
     created_at := Some (clock_now c); last_used := next_reading c |}.

(** The calls of the cleanup hook of [p] on the entries [q], in order. *)
Definition cleanup_calls (p : Pool) (q : list (Member * Stats)) : list Event :=
  match pool_cleanup_func p with
  | Some h => map (fun x => EvCleanup h (fst x) (snd x)) q
  | None => []
  end.

(** Stats as [_get_default_stats()] makes them for a new member. *)
Definition fresh_stats (s : Stats) : Prop :=
  exists c, s = default_stats true c.

(** The length of the queue after [__init__]. *)
Definition initial_fill (a : Args) : nat :=
  if lazy_ a then 0%nat else Z.to_nat (max_members a).

(** References are handed out in increasing order: those in the store and
    in the registry are below the next one. *)
Definition wf (w : World) : Prop :=
  (forall pid p, pools w !! pid = Some p -> (pid < next_pid w)%nat) /\
  (forall name pid, registry w !! name = Some pid -> (pid < next_pid w)%nat).

Definition news (q : list (Member * Stats)) : list Event :=
  map (fun x => EvNew (fst x)) q.

(** The calls of the cleanup hook among the recorded calls. *)
Definition is_cleanup (e : Event) : bool :=
  match e with
  | EvCleanup _ _ _ => true
  | _ => false
  end.

Definition cleanups (l : list Event) : list Event := List.filter is_cleanup l.

(** [c'] is [c] after some readings. *)
Definition later (c c' : Clock) : Prop := exists k, c' = Nat.iter k tick c.

(** No reading of the clock, now or later, is after [bound]. *)
Fixpoint stays_within (bound t : Z) (ticks : list Z) : Prop :=
  t <= bound /\
  match ticks with
  | [] => True
  | d :: ds => stays_within bound (t + d) ds
  end.

Definition never_past (bound : Z) (c : Clock) : Prop :=
  stays_within bound (clock_now c) (clock_ticks c).

(** The member with stats [s] does not expire by age on clock [c]: the pool
    has no expiry, or the clock never passes the expiry time. *)
Definition ageless (p : Pool) (s : Stats) (c : Clock) : Prop :=
  expire_in_secs p = 0 \/
  exists t0, created_at s = Some t0 /\
             never_past (t0 + timedelta (expire_in_secs p)) c.

(** The queue of the pool at [pid]. *)
Definition queue_of (pid : nat) (w : World) : option (list (Member * Stats)) :=
  pool_queue <$> pools w !! pid.

(** After [k] cycles from [w] the queue of [pid] holds a member other than
    [m] and the cleanup hook has been called exactly once more. *)
Definition replaced_after (k : nat) (pid : nat) (m : Member) (w : World) : Prop :=
  exists m' s' w',
    cycles k pid w = (Ok tt, w') /\
    queue_of pid w' = Some [(m', s')] /\
    m' <> m /\
    length (cleanups (calls w')) = S (length (cleanups (calls w))).

(** A computation that hands out no pool reference and keeps [wf]. *)
Definition steady_refs {A} (c : M A) : Prop :=
  forall w, next_pid (snd (c w)) = next_pid w /\ (wf w -> wf (snd (c w))).

(** The attributes [__init__] gives a pool of class [k] made with the
    arguments [a], with [q] as its queue. *)
Definition pool_of (k : Klass) (a : Args) (q : list (Member * Stats)) : Pool :=
  {| klass := k;
     max_pool_object := max_members a;
     max_reusable_count := max_reusable a;
     expire_in_secs := expires a;
     pre_check := pre_check_ a;
     post_check := post_check_ a;
     pool_create_func := or_else (create_func a) (klass_create k);
     pool_check_func := or_else (check_func a) (klass_check_invalid k);
     pool_cleanup_func := or_else (cleanup_func a) (klass_cleanup k);
     pool_queue := q |}.

(** ** Concrete worlds used in the examples *)

(** A world holding the single pool [p] at reference 0, registered under the
    name of its class. *)
Definition world_with (p : Pool) (c : Clock) : World :=
  {| clock := c; next_oid := 100; next_pid := 1;
     pools := {[ 0%nat := p ]};
     registry := {[ klass_name (klass p) := 0%nat ]};
     calls := []; stdout := [] |}.

Definition browser0 : Member :=
  {| oid := 0; maker := ByKlass "Browser" 0 |}.

(** Stats as a client may hand them to [queue_member]: no ['created_at']. *)
Definition stats_without_created_at : Stats :=
  {| count := Some 0; new := false; created_at := None; last_used := 0 |}.

Definition never_by_count : Args :=
  {| max_members := 1; max_reusable := 0; expires := 30;
     create_func := None; check_func := None; cleanup_func := None;
     lazy_ := false; force := false; pre_check_ := false;
     post_check_ := true |}.

Definition used_thrice : Stats :=
  {| count := Some 3; new := false; created_at := Some 0; last_used := 2 |}.

(** A pool of [Browser] with the default arguments and one queued member. *)
Definition default_pool : Pool :=
  pool_of Browser default_args [(browser0, used_thrice)].

(** The same with an empty queue, a create hook and a check hook that
    rejects everything, checked before use. *)
Definition strict_args : Args :=
  {| max_members := 1; max_reusable := 20; expires := 30;
     create_func := Some 7%nat; check_func := Some (fun _ _ => true);
     cleanup_func := Some 9%nat;
     lazy_ := true; force := false; pre_check_ := true;
     post_check_ := true |}.

Definition strict_empty_pool : Pool := pool_of Browser strict_args [].

(** Another class that is also called [Browser]. *)
Definition Browser_twin : Klass :=
  {| klass_name := "Browser"; klass_id := 1; klass_create := Some 3%nat;
     klass_check_invalid := None; klass_cleanup := Some 4%nat |}.

Definition browser1 : Member :=
  {| oid := 1; maker := ByKlass "Browser" 0 |}.

(** A pool with a cleanup hook and two queued members. *)
Definition hooked_args : Args :=
  {| max_members := 2; max_reusable := 20; expires := 30;
     create_func := None; check_func := None; cleanup_func := Some 9%nat;
     lazy_ := false; force := false; pre_check_ := false;
     post_check_ := true |}.

Definition hooked_pool : Pool :=
  pool_of Browser hooked_args
    [(browser0, used_thrice); (browser1, default_stats true (steady 1))].

(** [p1 = ObjectPool(Browser, max_members=2, cleanup_func=...)] followed by
    [p2 = ObjectPool(Browser, force=True)]: [p1] is reference 0 and is not
    registered any more, [p2] is reference 1. *)
Definition forced_args : Args :=
  {| max_members := 1; max_reusable := 20; expires := 30;
     create_func := None; check_func := None; cleanup_func := None;
     lazy_ := false; force := true; pre_check_ := false;
     post_check_ := true |}.

Definition after_force : World :=
  snd ((ObjectPool Browser hooked_args ;; ObjectPool Browser forced_args)
         (start (steady 0))).

Definition stale_pool : Pool :=
  match pools after_force !! 0%nat with
  | Some p => p
  | None => hooked_pool
  end.

(** [ObjectPool(Browser, max_members=1, max_reusable=1, expires=0,
    cleanup_func=...)] *)
Definition reuse_once_args : Args :=
  {| max_members := 1; max_reusable := 1; expires := 0;
     create_func := None; check_func := None; cleanup_func := Some 9%nat;
     lazy_ := false; force := false; pre_check_ := false;
     post_check_ := true |}.

Definition reuse_once_world : World :=
  snd (ObjectPool Browser reuse_once_args (start (steady 0))).

(** The shape of the tests in [test_pool_validation_behaviour.py]: a pool of
    one [Browser], a borrow, thirteen seconds of sleep, another borrow; the
    result is the two members borrowed. *)
Definition single_member_args (E : Z) (pre post : bool) : Args :=
  {| max_members := 1; max_reusable := 20; expires := E;
     create_func := None; check_func := None; cleanup_func := None;
     lazy_ := false; force := false; pre_check_ := pre;
     post_check_ := post |}.

Definition borrow_sleep_borrow (a : Args) : M (option Member * option Member) :=
  do p <- ObjectPool Browser a;
  do x <- cycle p;
  sleep 13 ;;
  do y <- cycle p;
  ret (fst <$> x, fst <$> y).

(** A clock that advances by one microsecond after its first reading. *)
Definition ticking (t : Z) : Clock := {| clock_now := t; clock_ticks := [1] |}.

(** A clock whose first two readings fall in the same microsecond, after
    which it moves on. *)
Definition coarse (t : Z) : Clock :=
  {| clock_now := t; clock_ticks := [0; 1; 1] |}.

(** ** Vocabulary of the further properties *)

(** [p'] is [p] up to its queue. *)
Definition same_config (p p' : Pool) : Prop :=
  with_queue [] p' = with_queue [] p.

(** A computation that works on the pool at [pid] only: it leaves the
    registry and the other pools as they are, keeps the attributes of the
    pool apart from its queue, and makes no pool. *)
Definition confined (pid : nat) {A} (c : M A) : Prop :=
  forall w,
    registry (snd (c w)) = registry w /\
    (forall j, j <> pid -> pools (snd (c w)) !! j = pools w !! j) /\
    (forall p, pools w !! pid = Some p ->
       exists p', pools (snd (c w)) !! pid = Some p' /\ same_config p p') /\
    (pools w !! pid = None -> pools (snd (c w)) !! pid = None).

(** Every name in the registry leads to a pool in the store, made for a
    class of that name. *)
Definition registry_sound (w : World) : Prop :=
  forall name pid, registry w !! name = Some pid ->
    exists p, pools w !! pid = Some p /\ klass_name (klass p) = name.

Definition consistent (w : World) : Prop := wf w /\ registry_sound w.

(** A class with hooks of its own, and arguments that name other hooks. *)
Definition Hooked : Klass :=
  {| klass_name := "Hooked"; klass_id := 2; klass_create := Some 3%nat;
     klass_check_invalid := None; klass_cleanup := Some 4%nat |}.

Definition lazy_args : Args :=
  {| max_members := 3; max_reusable := 20; expires := 30;
     create_func := None; check_func := None; cleanup_func := None;
     lazy_ := true; force := false; pre_check_ := false;
     post_check_ := true |}.

Definition negative_forced_args : Args :=
  {| max_members := -1; max_reusable := 20; expires := 30;
     create_func := None; check_func := None; cleanup_func := None;
     lazy_ := false; force := true; pre_check_ := false;
     post_check_ := true |}.

(** A pool that checks nothing, with two queued members. *)
Definition unchecked_args : Args :=
  {| max_members := 2; max_reusable := 20; expires := 30;
     create_func := None; check_func := None; cleanup_func := Some 9%nat;
     lazy_ := false; force := false; pre_check_ := false;
     post_check_ := false |}.

Definition unchecked_pool : Pool :=
  pool_of Browser unchecked_args
    [(browser0, used_thrice); (browser1, default_stats true (steady 1))].

(** Stats as a client may hand them to [queue_member]: no ['count']. *)
Definition stats_without_count : Stats :=
  {| count := None; new := false; created_at := Some 0; last_used := 0 |}.

(** A pool whose limits are both 0, and a clock that leaps. *)
Definition zero_limit_args : Args :=
  {| max_members := 1; max_reusable := 0; expires := 0;
     create_func := None; check_func := None; cleanup_func := Some 9%nat;
     lazy_ := false; force := false; pre_check_ := false;
     post_check_ := true |}.

Definition zero_limit_pool : Pool :=
  pool_of Browser zero_limit_args [(browser0, used_thrice)].

Definition leaping : Clock :=
  {| clock_now := 0; clock_ticks := [timedelta 1000; timedelta 100000] |}.

(** A pool that checks its members on the way out and on the way in. *)
Definition both_checks_args : Args :=
  {| max_members := 1; max_reusable := 20; expires := 30;
     create_func := None; check_func := None; cleanup_func := Some 9%nat;
     lazy_ := false; force := false; pre_check_ := true;
     post_check_ := true |}.

Definition both_checks_pool : Pool :=
  pool_of Browser both_checks_args [(browser0, used_thrice)].

(** A pool that checks on the way out only, whose oldest pair has no
    ['count']. *)
Definition pre_check_only_args : Args :=
  {| max_members := 2; max_reusable := 20; expires := 30;
     create_func := None; check_func := None; cleanup_func := Some 9%nat;
     lazy_ := false; force := false; pre_check_ := true;
     post_check_ := false |}.

Definition countless_pool : Pool :=
  pool_of Browser pre_check_only_args
    [(browser0, stats_without_count); (browser1, used_thrice)].

(** * Sanity checks against the repository's tests *)

Example test_with_lazy_option :
  pool_size_after
    (ObjectPool Browser
       {| max_members := 10; max_reusable := 20; expires := 30;
          create_func := None; check_func := None; cleanup_func := None;
          lazy_ := true; force := false; pre_check_ := false;
          post_check_ := true |}) 0%nat (start (steady 0)) = Some 0%nat.
Proof. vm_compute. reflexivity. Qed.

Example test_creation_with_lazy_option :
  pool_size_after
    (do p <- ObjectPool Browser
       {| max_members := 10; max_reusable := 20; expires := 30;
          create_func := None; check_func := None; cleanup_func := None;
          lazy_ := true; force := false; pre_check_ := false;
          post_check_ := true |};
     cycle p) 0%nat (start (steady 0)) = Some 1%nat.
Proof. vm_compute. reflexivity. Qed.

Example test_default_size :
  pool_size_after (ObjectPool Browser default_args) 0%nat (start (steady 0))
  = Some 10%nat.
Proof. vm_compute. reflexivity. Qed.

Example test_with_non_expiry :
  fst (borrow_sleep_borrow (single_member_args 0 false true) (start (steady 0)))
  = Ok (Some browser0, Some browser0).
Proof. vm_compute. reflexivity. Qed.

Example test_with_expire_true_pre_check :
  fst (borrow_sleep_borrow (single_member_args 10 true false) (start (steady 0)))
  = Ok (Some browser0, Some browser1).
Proof. vm_compute. reflexivity. Qed.

Example test_with_expire_false_pre_check :
  fst (borrow_sleep_borrow (single_member_args 10 false true) (start (steady 0)))
  = Ok (Some browser0, Some browser0).
Proof. vm_compute. reflexivity. Qed.

Example test_with_force_option :
  fst ((do pool <- ObjectPool Browser default_args;
        do pool1 <- ObjectPool Browser forced_args;
        ret (pool, pool1)) (start (steady 0)))
  = Ok (0%nat, 1%nat).
Proof. vm_compute. reflexivity. Qed.

Example negative_max_members :
  fst (ObjectPool Browser
         {| max_members := -1; max_reusable := 20; expires := 30;
            create_func := None; check_func := None; cleanup_func := None;
            lazy_ := false; force := false; pre_check_ := false;
            post_check_ := true |} (start (steady 0)))
  = Raise (Exception "max_members should not be negative number.").
Proof. vm_compute. reflexivity. Qed.

(** * Running computations step by step *)

Lemma bind_ok {A B} (c : M A) (k : A -> M B) w a w1 :
  c w = (Ok a, w1) -> bind c k w = k a w1.
Proof. intros H. unfold bind. by rewrite H. Qed.

Lemma bind_raise {A B} (c : M A) (k : A -> M B) w e w1 :
  c w = (Raise e, w1) -> bind c k w = (Raise e, w1).
Proof. intros H. unfold bind. by rewrite H. Qed.

Lemma self_ok pid p w : pools w !! pid = Some p -> self pid w = (Ok p, w).
Proof. intros H. unfold self. by rewrite H. Qed.

Lemma qsize_ok pid p w :
  pools w !! pid = Some p ->
  get_pool_size pid w = (Ok (Z.of_nat (length (pool_queue p))), w).
Proof.
  intros H. unfold get_pool_size, qsize.
  by rewrite (bind_ok _ _ _ _ _ (self_ok _ _ _ H)).
Qed.

Lemma queue_put_ok pid p x w :
  pools w !! pid = Some p ->
  queue_put pid x w
  = (Ok tt, set_pools (<[pid := with_queue (pool_queue p ++ [x]) p]> (pools w)) w).
Proof.
  intros H. unfold queue_put.
  rewrite (bind_ok _ _ _ _ _ (self_ok _ _ _ H)).
  unfold set_self_queue. by rewrite H.
Qed.

Lemma queue_get_ok pid p x q w :
  pools w !! pid = Some p ->
  pool_queue p = x :: q ->
  queue_get pid w
  = (Ok x, set_pools (<[pid := with_queue q p]> (pools w)) w).
Proof.
  intros H Hq. unfold queue_get.
  rewrite (bind_ok _ _ _ _ _ (self_ok _ _ _ H)), Hq.
  unfold bind, set_self_queue. by rewrite H.
Qed.

Lemma get_default_stats_ok b w :
  _get_default_stats b w
  = (Ok (default_stats b (clock w)), set_clock (tick (tick (clock w))) w).
Proof. reflexivity. Qed.

Lemma create_new_instance_ok pid p w :
  pools w !! pid = Some p ->
  __create_new_instance pid w
  = (Ok (fabricated p w),
     set_calls (calls w ++ [EvNew (fabricated p w)])
       (set_next_oid (S (next_oid w)) w)).
Proof.
  intros H. unfold __create_new_instance.
  rewrite (bind_ok _ _ _ _ _ (self_ok _ _ _ H)).
  unfold fabricated, maker_of. by destruct (pool_create_func p).
Qed.

Lemma member_cleanup_ok pid p m s w :
  pools w !! pid = Some p ->
  __member_cleanup pid m s w
  = (Ok tt, set_calls (calls w ++ cleanup_calls p [(m, s)]) w).
Proof.
  intros H. unfold __member_cleanup.
  rewrite (bind_ok _ _ _ _ _ (self_ok _ _ _ H)).
  unfold cleanup_calls. destruct (pool_cleanup_func p); [done |].
  unfold ret. rewrite app_nil_r. by destruct w.
Qed.

Lemma quiet_refl w : quiet w w.
Proof. by destruct w. Qed.

Lemma quiet_pools w w' : quiet w w' -> pools w' = pools w.
Proof. intros ->. reflexivity. Qed.

Lemma quiet_calls w w' : quiet w w' -> calls w' = calls w.
Proof. intros ->. reflexivity. Qed.

Lemma internal_check_ok pid p s n w :
  pools w !! pid = Some p ->
  count s = Some n ->
  exists w', _internal_invalid_check pid s w
             = (Ok (internal_verdict p s n (clock w)), w') /\ quiet w w'.
Proof.
  intros Hp Hn.
  unfold _internal_invalid_check, _get_expiry_time, int_lt_count,
    internal_verdict.
  rewrite Hn.
  unfold bind, self, datetime_now, print, ret, next_reading, tick, quiet.
  rewrite Hp.
  destruct w as [c no np ps rg cl out]; simpl in *.
  destruct (created_at s) as [t0|]; simpl; rewrite ?Hp; simpl;
    destruct (max_reusable_count p =? 0); simpl;
    try destruct (max_reusable_count p <? n); simpl;
    destruct (expire_in_secs p =? 0); simpl;
    repeat match goal with
           | |- context [if ?b then _ else _] => destruct b eqn:?; simpl
           end;
    eauto.
Qed.

(** The verdict of [__check_and_get_member] is the disjunction of the two
    verdicts; only the check hook's call is added to the record. *)
Lemma judged_invalid_ok pid p m s n w :
  pools w !! pid = Some p ->
  count s = Some n ->
  exists w', judged_invalid pid m s w
             = (Ok (check_verdict p m s || internal_verdict p s n (clock w)), w')
             /\ pools w' = pools w
             /\ next_oid w' = next_oid w
             /\ registry w' = registry w
             /\ next_pid w' = next_pid w
             /\ calls w' = calls w ++
                  match pool_check_func p with
                  | Some f => [EvCheck m s (f m s)]
                  | None => []
                  end.
Proof.
  intros Hp Hn. unfold judged_invalid, check_verdict.
  rewrite (bind_ok _ _ _ _ _ (self_ok _ _ _ Hp)).
  destruct (pool_check_func p) as [f|].
  - erewrite bind_ok; [| reflexivity].
    destruct (internal_check_ok pid p s n
                (set_calls (calls w ++ [EvCheck m s (f m s)]) w) Hp Hn)
      as (w' & E & Q).
    rewrite (bind_ok _ _ _ _ _ E). exists w'. split; [done |].
    rewrite Q. by simpl.
  - erewrite bind_ok; [| reflexivity].
    destruct (internal_check_ok pid p s n w Hp Hn) as (w' & E & Q).
    rewrite (bind_ok _ _ _ _ _ E). exists w'. split; [done |].
    rewrite Q. simpl. by rewrite app_nil_r.
Qed.

Lemma internal_verdict_true p s n c :
  internal_verdict p s n c = true <-> over_reused p n \/ over_age p s c.
Proof.
  unfold internal_verdict, over_reused, over_age.
  rewrite orb_true_iff, !andb_true_iff, !negb_true_iff, !Z.eqb_neq, Z.ltb_lt.
  destruct (created_at s); rewrite Z.ltb_lt; intuition lia.
Qed.

Lemma check_verdict_true p m s :
  check_verdict p m s = true <-> check_says_invalid p m s.
Proof.
  unfold check_verdict, check_says_invalid. split.
  - destruct (pool_check_func p) as [f|]; [eauto | done].
  - intros (f & -> & H). done.
Qed.

(** * The validity policy *)

(** C1, as the specification words it, fails: a member whose stats carry no
    ['created_at'] is not judged invalid when the reading of the clock taken
    as its expiry time and the reading it is compared with fall in the same
    microsecond, although the pool expires members by age. *)
Lemma absent_created_at_not_expired_at_once :
  let p := pool_of Browser never_by_count [] in
  let w := world_with p (coarse 100) in
  ~ (fst (judged_invalid 0 browser0 stats_without_created_at w) = Ok true <->
     check_says_invalid p browser0 stats_without_created_at \/
     over_reused p 0 \/
     over_age_at_once p stats_without_created_at (clock_now (clock w))).
Proof.
  intros p w [_ H].
  assert (E : fst (judged_invalid 0 browser0 stats_without_created_at w)
              = Ok false) by (vm_compute; reflexivity).
  rewrite E in H. discriminate H.
  right. right. split; [discriminate | exact I].
Qed.

(** The same member on a clock that moves between the two readings is
    judged invalid. *)
Example absent_created_at_expired_when_clock_moves :
  fst (judged_invalid 0 browser0 stats_without_created_at
         (world_with (pool_of Browser never_by_count []) (ticking 100)))
  = Ok true.
Proof. vm_compute. reflexivity. Qed.

(** C1 (amended): the member is judged invalid exactly when the check hook
    returns true, or the limit of reuses is not zero and the count is
    strictly above it, or the expiry in seconds is not zero and the time
    read from the clock is strictly after the expiry time; the expiry time
    is ['created_at'] plus the expiry when ['created_at'] is there, and
    otherwise a reading of the clock, which the next reading has to pass.
    [__check_and_get_member] replaces the member on that verdict and
    updates the stats otherwise. *)
Theorem invalidity_decision pid p m s n w :
  pools w !! pid = Some p ->
  count s = Some n ->
  exists b w',
    judged_invalid pid m s w = (Ok b, w') /\
    (b = true <->
     check_says_invalid p m s \/ over_reused p n \/ over_age p s (clock w)) /\
    __check_and_get_member pid m s w
    = if b then __cleanup_and_get_member pid m s w'
      else (do s' <- __update_member_stats s; ret (m, s')) w'.
Proof.
  intros Hp Hn.
  destruct (judged_invalid_ok pid p m s n w Hp Hn) as (w' & E & _).
  eexists _, w'. split; [exact E |]. split.
  - rewrite orb_true_iff, check_verdict_true, internal_verdict_true. tauto.
  - unfold __check_and_get_member. rewrite (bind_ok _ _ _ _ _ E).
    by destruct (_ || _).
Qed.

Lemma invalidity_decision_witness :
  let p := pool_of Browser never_by_count [] in
  let w := world_with p (steady 100) in
  pools w !! 0%nat = Some p /\
  count stats_without_created_at = Some 0 /\
  exists b w',
    judged_invalid 0 browser0 stats_without_created_at w = (Ok b, w') /\
    (b = true <->
     check_says_invalid p browser0 stats_without_created_at \/
     over_reused p 0 \/ over_age p stats_without_created_at (clock w)) /\
    __check_and_get_member 0 browser0 stats_without_created_at w
    = if b then __cleanup_and_get_member 0 browser0 stats_without_created_at w'
      else (do s' <- __update_member_stats stats_without_created_at;
            ret (browser0, s')) w'.
Proof.
  intros p w. split; [reflexivity |]. split; [reflexivity |].
  apply (invalidity_decision 0 p browser0 stats_without_created_at 0 w);
    reflexivity.
Defined.

(** C3: when the policy judges the pair valid, [__check_and_get_member]
    returns the same member with stats whose count is one more, whose ['new']
    is false, whose ['last_used'] is the time read from the clock at that
    moment and whose ['created_at'] is the one it had. *)
Theorem valid_member_stats_update pid p m s n w :
  pools w !! pid = Some p ->
  count s = Some n ->
  ~ check_says_invalid p m s ->
  ~ over_reused p n ->
  ~ over_age p s (clock w) ->
  exists w1,
    judged_invalid pid m s w = (Ok false, w1) /\
    __check_and_get_member pid m s w
    = (Ok (m, {| count := Some (n + 1); new := false;
                 created_at := created_at s;
                 last_used := clock_now (clock w1) |}),
       set_clock (tick (clock w1)) w1).
Proof.
  intros Hp Hn Hc Hr Ha.
  destruct (judged_invalid_ok pid p m s n w Hp Hn) as (w1 & E & _).
  assert (B : check_verdict p m s || internal_verdict p s n (clock w) = false).
  { apply not_true_is_false.
    rewrite orb_true_iff, check_verdict_true, internal_verdict_true. tauto. }
  rewrite B in E. exists w1. split; [exact E |].
  unfold __check_and_get_member. rewrite (bind_ok _ _ _ _ _ E).
  unfold __update_member_stats. rewrite Hn. reflexivity.
Qed.

Lemma valid_member_stats_update_witness :
  let w := world_with default_pool (steady 5) in
  exists w1,
    judged_invalid 0 browser0 used_thrice w = (Ok false, w1) /\
    __check_and_get_member 0 browser0 used_thrice w
    = (Ok (browser0, {| count := Some (3 + 1); new := false;
                        created_at := created_at used_thrice;
                        last_used := clock_now (clock w1) |}),
       set_clock (tick (clock w1)) w1).
Proof.
  intros w.
  apply (valid_member_stats_update 0 default_pool browser0 used_thrice 3 w).
  - reflexivity.
  - reflexivity.
  - intros (f & H & _). discriminate H.
  - intros [_ H]. vm_compute in H. discriminate H.
  - intros [_ H]. vm_compute in H. discriminate H.
Defined.

(** The policy is what [get_member] applies to the pair it takes out when
    [pre_check] is on, and what [queue_member] applies to the pair it is
    given when [post_check] is on. *)
Lemma get_member_pre_check pid p m s q w :
  pools w !! pid = Some p ->
  pool_queue p = (m, s) :: q ->
  pre_check p = true ->
  get_member pid w
  = __check_and_get_member pid m s
      (set_pools (<[pid := with_queue q p]> (pools w)) w).
Proof.
  intros Hp Hq Hpre. unfold get_member.
  rewrite (bind_ok _ _ _ _ _ (qsize_ok _ _ _ Hp)), Hq.
  change (Z.of_nat (length ((m, s) :: q)) =? 0) with false. cbv iota.
  rewrite (bind_ok _ _ _ _ _ (queue_get_ok _ _ _ _ _ Hp Hq)).
  cbv beta iota.
  erewrite bind_ok; [| by apply self_ok, lookup_insert_eq].
  cbn [pre_check with_queue]. by rewrite Hpre.
Qed.

Lemma queue_member_post_check pid p m s w :
  pools w !! pid = Some p ->
  post_check p = true ->
  queue_member pid m s w
  = (do x <- __check_and_get_member pid m s; queue_put pid x) w.
Proof.
  intros Hp Hpost. unfold queue_member.
  by rewrite (bind_ok _ _ _ _ _ (self_ok _ _ _ Hp)), Hpost.
Qed.

Lemma queue_member_no_post_check pid p m s w :
  pools w !! pid = Some p ->
  post_check p = false ->
  queue_member pid m s w = queue_put pid (m, s) w.
Proof.
  intros Hp Hpost. unfold queue_member.
  by rewrite (bind_ok _ _ _ _ _ (self_ok _ _ _ Hp)), Hpost.
Qed.

(** * Borrowing *)

(** C4: on an empty queue [get_member] returns a member made on the spot,
    by the create hook when the pool has one and by the class otherwise,
    with stats of count 0 and ['new'] true.  It does not raise; the only
    call it records is the construction, so neither the check hook nor the
    cleanup hook runs, whatever [pre_check] says, and the queue stays
    empty. *)
Theorem get_member_empty_queue pid p w :
  pools w !! pid = Some p ->
  pool_queue p = [] ->
  get_member pid w
  = (Ok (fabricated p w, default_stats true (clock w)),
     set_clock (tick (tick (clock w)))
       (set_calls (calls w ++ [EvNew (fabricated p w)])
          (set_next_oid (S (next_oid w)) w)))
  /\ count (default_stats true (clock w)) = Some 0
  /\ new (default_stats true (clock w)) = true
  /\ maker (fabricated p w)
     = match pool_create_func p with
       | Some h => ByCreateFunc h
       | None => ByKlass (klass_name (klass p)) (klass_id (klass p))
       end.
Proof.
  intros Hp Hq. split; [| done].
  unfold get_member.
  rewrite (bind_ok _ _ _ _ _ (qsize_ok _ _ _ Hp)), Hq. simpl.
  rewrite (bind_ok _ _ _ _ _ (create_new_instance_ok _ _ _ Hp)).
  reflexivity.
Qed.

Lemma get_member_empty_queue_witness :
  let p := strict_empty_pool in
  let w := world_with p (steady 5) in
  pre_check p = true /\
  get_member 0 w
  = (Ok (fabricated p w, default_stats true (clock w)),
     set_clock (tick (tick (clock w)))
       (set_calls (calls w ++ [EvNew (fabricated p w)])
          (set_next_oid (S (next_oid w)) w)))
  /\ count (default_stats true (clock w)) = Some 0
  /\ new (default_stats true (clock w)) = true
  /\ maker (fabricated p w)
     = match pool_create_func p with
       | Some h => ByCreateFunc h
       | None => ByKlass (klass_name (klass p)) (klass_id (klass p))
       end.
Proof.
  intros p w. split; [reflexivity |].
  apply (get_member_empty_queue 0 p w); reflexivity.
Defined.

(** * References stay well formed *)

Lemma wf_start c : wf (start c).
Proof.
  split; intros ? ? H; unfold start in H; simpl in H;
    by apply lookup_empty_Some in H.
Qed.

Lemma world_with_wf p c : wf (world_with p c).
Proof.
  split.
  - intros pid q H. unfold world_with in H. cbn [pools] in H.
    apply lookup_singleton_Some in H as [<- _]. simpl. lia.
  - intros name pid H. unfold world_with in H. cbn [registry] in H.
    apply lookup_singleton_Some in H as [_ <-]. simpl. lia.
Qed.

Lemma steady_ret {A} (a : A) : steady_refs (ret a).
Proof. by intros w. Qed.

Lemma steady_raise {A} e : steady_refs (@raise A e).
Proof. by intros w. Qed.

Lemma steady_bind {A B} (c : M A) (k : A -> M B) :
  steady_refs c -> (forall a, steady_refs (k a)) -> steady_refs (bind c k).
Proof.
  intros Hc Hk w. specialize (Hc w). unfold bind.
  destruct (c w) as [[a | e] w1]; simpl in *; [| done].
  destruct Hc as [Hn0 Hw0]. destruct (Hk a w1) as [Hn Hw].
  split; [congruence | tauto].
Qed.

Lemma steady_datetime_now : steady_refs datetime_now.
Proof. by intros w. Qed.

Lemma steady_print d : steady_refs (print d).
Proof. by intros w. Qed.

Lemma steady_record_call e : steady_refs (record_call e).
Proof. by intros w. Qed.

Lemma steady_new_object mk : steady_refs (new_object mk).
Proof. by intros w. Qed.

Lemma steady_self pid : steady_refs (self pid).
Proof. intros w. unfold self. by destruct (pools w !! pid). Qed.

Lemma steady_set_self_queue pid q : steady_refs (set_self_queue pid q).
Proof.
  intros w. unfold set_self_queue.
  destruct (pools w !! pid) as [p|] eqn:Hp; [| done].
  split; [done |]. intros [Wp Wr]. split; [| exact Wr].
  intros i x. simpl. rewrite lookup_insert.
  case_decide; [subst; intros _; by apply (Wp _ p) | apply Wp].
Qed.

Lemma steady_remove_pool k : steady_refs (_remove_pool k).
Proof.
  intros w. split; [done |]. intros [Wp Wr]. split; [exact Wp |].
  intros name i. simpl. rewrite lookup_delete.
  case_decide; [done | apply Wr].
Qed.

Lemma steady_pool_exists k : steady_refs (_pool_exists k).
Proof. by intros w. Qed.

Lemma steady_registry_getitem name : steady_refs (registry_getitem name).
Proof. intros w. unfold registry_getitem. by destruct (registry w !! name). Qed.

Lemma steady_sleep n : steady_refs (sleep n).
Proof. by intros w. Qed.

Create HintDb steady.

#[local] Hint Resolve steady_ret steady_raise steady_datetime_now steady_print
  steady_record_call steady_new_object steady_self steady_set_self_queue
  steady_remove_pool steady_pool_exists steady_registry_getitem steady_sleep
  : steady.

Ltac steady :=
  repeat first
    [ solve [auto with steady]
    | apply steady_bind; [| intros ?]
    | match goal with
      | |- steady_refs (match ?x with _ => _ end) => destruct x
      | |- steady_refs (if ?b then _ else _) => destruct b
      end ].

Lemma steady_qsize pid : steady_refs (qsize pid).
Proof. unfold qsize. steady. Qed.

Lemma steady_queue_get pid : steady_refs (queue_get pid).
Proof. unfold queue_get. steady. Qed.

Lemma steady_queue_put pid x : steady_refs (queue_put pid x).
Proof. unfold queue_put. steady. Qed.

Lemma steady_get_default_stats b : steady_refs (_get_default_stats b).
Proof. unfold _get_default_stats. steady. Qed.

Lemma steady_internal_invalid_check pid s :
  steady_refs (_internal_invalid_check pid s).
Proof.
  unfold _internal_invalid_check, _get_expiry_time, int_lt_count. steady.
Qed.

Lemma steady_create_new_instance pid : steady_refs (__create_new_instance pid).
Proof. unfold __create_new_instance. steady. Qed.

Lemma steady_member_cleanup pid m s : steady_refs (__member_cleanup pid m s).
Proof. unfold __member_cleanup. steady. Qed.

#[local] Hint Resolve steady_qsize steady_queue_get steady_queue_put
  steady_get_default_stats steady_internal_invalid_check
  steady_create_new_instance steady_member_cleanup : steady.

Lemma steady_check_and_get_member pid m s :
  steady_refs (__check_and_get_member pid m s).
Proof.
  unfold __check_and_get_member, judged_invalid, __cleanup_and_get_member,
    __update_member_stats.
  steady.
Qed.

#[local] Hint Resolve steady_check_and_get_member : steady.

Lemma steady_get_member pid : steady_refs (get_member pid).
Proof. unfold get_member, get_pool_size. steady. Qed.

Lemma steady_queue_member pid m s : steady_refs (queue_member pid m s).
Proof. unfold queue_member. steady. Qed.

Lemma steady_create_pool_loop n pid : steady_refs (create_pool_loop n pid).
Proof. induction n as [|n IH]; simpl; steady. Qed.

Lemma steady_destroy_loop fuel pid : steady_refs (destroy_loop fuel pid).
Proof.
  induction fuel as [|fuel IH]; simpl; unfold get_pool_size; steady.
Qed.

#[local] Hint Resolve steady_get_member steady_queue_member
  steady_create_pool_loop steady_destroy_loop : steady.

Lemma steady_destroy pid : steady_refs (destroy pid).
Proof. unfold destroy. steady. Qed.

Lemma steady_py_with {A} pid (body : Member * Stats -> M A) :
  (forall v, steady_refs (body v)) -> steady_refs (py_with (get pid) body).
Proof.
  intros Hb. unfold py_with, __enter__, get, Executor__init__.
  apply steady_bind; [steady |].
  intros [ex [m s]] w.
  destruct (Hb (m, s) w) as [Hn Hw].
  destruct (body (m, s) w) as [[a | e] w1]; simpl in *.
  - assert (S : steady_refs (__exit__ ex None ;; ret (Some a)))
      by (unfold __exit__; steady).
    destruct (S w1) as [Hn1 Hw1]. split; [congruence | tauto].
  - assert (S : steady_refs
                  (do swallow <- __exit__ ex (Some e);
                   if swallow then ret None else @raise (option A) e))
      by (unfold __exit__; steady).
    destruct (S w1) as [Hn1 Hw1]. split; [congruence | tauto].
Qed.

Lemma steady_cycle pid : steady_refs (cycle pid).
Proof. unfold cycle. apply steady_py_with. intros v. steady. Qed.

(** [__init__] on a reference that has been handed out. *)
Lemma steady_init pid k a w :
  wf w -> (pid < next_pid w)%nat ->
  next_pid (snd (__init__ pid k a w)) = next_pid w /\
  wf (snd (__init__ pid k a w)).
Proof.
  intros [Wp Wr] Hlt.
  remember (__init__ pid k a w) as r eqn:Er.
  unfold __init__ in Er.
  match type of Er with
  | _ = bind (setattrs pid ?p0) ?k0 w =>
      assert (S : steady_refs (k0 tt))
        by (cbv beta; unfold __create_pool, get_pool_size; steady);
      change (r = k0 tt (set_pools (<[pid := p0]> (pools w)) w)) in Er;
      destruct (S (set_pools (<[pid := p0]> (pools w)) w)) as [Hn Hw]
  end.
  subst r. split; [exact Hn |]. apply Hw. split; [| exact Wr].
  intros i x. simpl. rewrite lookup_insert.
  case_decide; [subst; by intros _ | apply Wp].
Qed.

(** The calls a client can make keep the references well formed. *)
Lemma wf_ObjectPool k a w : wf w -> wf (snd (ObjectPool k a w)).
Proof.
  intros W. unfold ObjectPool, __call__.
  assert (S0 : steady_refs (if force a then _remove_pool k else ret tt))
    by steady.
  destruct (S0 w) as [Hn0 Hw0]. specialize (Hw0 W).
  unfold bind at 1.
  destruct ((if force a then _remove_pool k else ret tt) w) as [[[] | e] w0];
    simpl in *; [| done].
  unfold bind at 1, _pool_exists.
  destruct (registry w0 !! klass_name k) eqn:Hr.
  - unfold registry_getitem. by rewrite Hr.
  - unfold type_call.
    assert (W1 : wf (set_next_pid (S (next_pid w0)) w0)).
    { destruct Hw0 as [Wp Wr]. split; intros ? ? H; simpl.
      - apply Wp in H. lia.
      - apply Wr in H. lia. }
    destruct (steady_init (next_pid w0) k a _ W1) as [Hn [Wp Wr]];
      [simpl; lia |].
    unfold bind at 1. unfold bind at 1.
    destruct (__init__ (next_pid w0) k a (set_next_pid (S (next_pid w0)) w0))
      as [[[] | e] w2]; simpl in *; [| by split].
    split; [exact Wp |]. intros name i. simpl. rewrite lookup_insert.
    case_decide; [intros [= <-]; rewrite Hn; lia | apply Wr].
Qed.

Lemma wf_get_member pid w : wf w -> wf (snd (get_member pid w)).
Proof. apply steady_get_member. Qed.

Lemma wf_queue_member pid m s w : wf w -> wf (snd (queue_member pid m s w)).
Proof. apply steady_queue_member. Qed.

Lemma wf_destroy pid w : wf w -> wf (snd (destroy pid w)).
Proof. apply steady_destroy. Qed.

Lemma wf_cycle pid w : wf w -> wf (snd (cycle pid w)).
Proof. apply steady_cycle. Qed.

(** * Construction and the registry *)

Lemma when_print_ok (b : bool) d w :
  exists w', (if b then print d else ret tt) w = (Ok tt, w') /\ quiet w w'.
Proof.
  destruct b; eexists; (split; [reflexivity |]);
    [by unfold quiet | apply quiet_refl].
Qed.

Lemma create_pool_loop_ok n : forall pid p w,
  pools w !! pid = Some p ->
  exists q w',
    create_pool_loop n pid w = (Ok tt, w') /\
    pools w' = <[pid := with_queue (pool_queue p ++ q) p]> (pools w) /\
    length q = n /\
    Forall (fun x => fresh_stats (snd x)) q /\
    registry w' = registry w /\
    next_pid w' = next_pid w /\
    stdout w' = stdout w /\
    calls w' = calls w ++ news q.
Proof.
  induction n as [|n IH]; intros pid p w Hp.
  - exists [], w. simpl. rewrite !app_nil_r.
    repeat split; try done.
    rewrite insert_id; [done |]. rewrite Hp. by destruct p.
  - simpl.
    rewrite (bind_ok _ _ _ _ _ (create_new_instance_ok _ _ _ Hp)).
    rewrite (bind_ok _ _ _ _ _ (get_default_stats_ok _ _)).
    set (x := (fabricated p w, _)).
    erewrite bind_ok; [| by apply (queue_put_ok pid p x)].
    match goal with |- context [create_pool_loop n pid ?w1] =>
      destruct (IH pid (with_queue (pool_queue p ++ [x]) p) w1)
        as (q & w' & E & Hps & Hl & Hf & Hr & Hn & Ho & Hc)
    end.
    { simpl. apply lookup_insert_eq. }
    exists (x :: q), w'. split; [exact E |].
    rewrite Hps, Hr, Hn, Ho, Hc. simpl.
    rewrite insert_insert_eq, <- !app_assoc. simpl.
    repeat split; try done.
    + by rewrite Hl.
    + constructor; [| done]. simpl. by eexists.
Qed.

(** [__init__] with a number of members that is not negative. *)
Lemma init_ok pid k a w :
  0 <= max_members a ->
  exists q w',
    __init__ pid k a w = (Ok tt, w') /\
    pools w' = <[pid := pool_of k a q]> (pools w) /\
    length q = initial_fill a /\
    Forall (fun x => fresh_stats (snd x)) q /\
    registry w' = registry w /\
    next_pid w' = next_pid w /\
    calls w' = calls w ++ news q.
Proof.
  intros Hm. unfold __init__.
  erewrite bind_ok; [| reflexivity].
  set (p0 := pool_of k a []).
  set (w0 := set_pools (<[pid := p0]> (pools w)) w).
  assert (Hp0 : pools w0 !! pid = Some p0) by apply lookup_insert_eq.
  rewrite (bind_ok _ _ _ _ _ (self_ok _ _ _ Hp0)).
  replace (max_pool_object p0 >=? 0) with true
    by (symmetry; apply Z.geb_le; exact Hm).
  erewrite bind_ok; [| reflexivity].
  destruct (when_print_ok (max_pool_object p0 =? 0)
              (UnlimitedMembers (klass_name k)) w0) as (w1 & E1 & Q1).
  rewrite (bind_ok _ _ _ _ _ E1).
  destruct (when_print_ok (expire_in_secs p0 =? 0)
              (NeverExpires (klass_name k)) w1) as (w2 & E2 & Q2).
  rewrite (bind_ok _ _ _ _ _ E2).
  assert (Hp2 : pools w2 !! pid = Some p0).
  { by rewrite (quiet_pools _ _ Q2), (quiet_pools _ _ Q1). }
  assert (F2 : registry w2 = registry w /\ next_pid w2 = next_pid w /\
               calls w2 = calls w /\ pools w2 = <[pid := p0]> (pools w)).
  { rewrite Q2, Q1. by simpl. }
  destruct F2 as (Fr & Fn & Fc & Fp).
  unfold initial_fill. destruct (lazy_ a); cbn [negb].
  - erewrite bind_ok; [| reflexivity].
    erewrite bind_ok; [| by apply (qsize_ok pid p0)].
    exists []. eexists. split; [reflexivity |]. simpl.
    rewrite Fr, Fn, Fc, Fp, app_nil_r. done.
  - destruct (create_pool_loop_ok (Z.to_nat (max_pool_object p0)) pid p0 w2 Hp2)
      as (q & w3 & E3 & Hps & Hl & Hf & Hr & Hn & Ho & Hc).
    assert (E3' : __create_pool pid w2 = (Ok tt, w3)).
    { unfold __create_pool. by rewrite (bind_ok _ _ _ _ _ (self_ok _ _ _ Hp2)). }
    rewrite (bind_ok _ _ _ _ _ E3').
    assert (Hp3 : pools w3 !! pid = Some (with_queue q p0)).
    { rewrite Hps. apply lookup_insert_eq. }
    erewrite bind_ok; [| by apply (qsize_ok pid _ _ Hp3)].
    exists q. eexists. split; [reflexivity |]. simpl.
    rewrite Hps, Hr, Hn, Hc, Fr, Fn, Fc, Fp, insert_insert_eq. done.
Qed.

(** [__init__] with a negative number of members. *)
Lemma init_negative pid k a w :
  max_members a < 0 ->
  exists w', __init__ pid k a w
             = (Raise (Exception "max_members should not be negative number."), w')
             /\ registry w' = registry w /\ calls w' = calls w.
Proof.
  intros Hm. unfold __init__.
  erewrite bind_ok; [| reflexivity].
  erewrite bind_ok; [| by apply self_ok, lookup_insert_eq].
  simpl. replace (max_members a >=? 0) with false.
  - eexists. split; [reflexivity |]. done.
  - symmetry. apply not_true_is_false. rewrite Z.geb_le. lia.
Qed.

(** [ObjectPool(k, ...)] when the name is registered and [force] is off. *)
Lemma ObjectPool_cached k a pid w :
  registry w !! klass_name k = Some pid ->
  force a = false ->
  ObjectPool k a w = (Ok pid, w).
Proof.
  intros Hr Hf. unfold ObjectPool, __call__. rewrite Hf.
  erewrite bind_ok; [| reflexivity].
  unfold bind, _pool_exists, registry_getitem. rewrite Hr. by rewrite Hr.
Qed.

(** [ObjectPool(k, ...)] when the name is free or [force] is on. *)
Lemma ObjectPool_constructs k a w :
  0 <= max_members a ->
  force a = true \/ registry w !! klass_name k = None ->
  exists q w',
    ObjectPool k a w = (Ok (next_pid w), w') /\
    pools w' = <[next_pid w := pool_of k a q]> (pools w) /\
    registry w' = <[klass_name k := next_pid w]> (registry w) /\
    next_pid w' = S (next_pid w) /\
    length q = initial_fill a /\
    Forall (fun x => fresh_stats (snd x)) q /\
    calls w' = calls w ++ news q.
Proof.
  intros Hm Hfree. unfold ObjectPool, __call__.
  set (c0 := if force a then _ else _).
  assert (H0 : exists w0, c0 w = (Ok tt, w0) /\
             registry w0 !! klass_name k = None /\
             <[klass_name k := next_pid w]> (registry w0)
             = <[klass_name k := next_pid w]> (registry w) /\
             pools w0 = pools w /\ next_pid w0 = next_pid w /\
             calls w0 = calls w).
  { unfold c0. destruct (force a) eqn:Hf.
    - eexists. split; [reflexivity |]. simpl.
      rewrite lookup_delete_eq, insert_delete_eq. done.
    - destruct Hfree as [? | Hn]; [done |]. exists w. done. }
  destruct H0 as (w0 & E0 & Hn0 & Hi0 & Hp0 & Hnp0 & Hc0).
  rewrite (bind_ok _ _ _ _ _ E0).
  unfold bind at 1, _pool_exists. rewrite Hn0.
  unfold type_call.
  destruct (init_ok (next_pid w0) k a (set_next_pid (S (next_pid w0)) w0) Hm)
    as (q & w1 & E1 & Hps & Hl & Hf & Hr & Hn & Hc).
  exists q.
  unfold bind at 1. unfold bind at 1. rewrite E1.
  eexists. split; [unfold ret, bind, registry_setitem; by rewrite Hnp0 |].
  simpl. rewrite Hps, Hr, Hn, Hc, Hnp0. simpl. rewrite Hi0, Hp0, Hc0. done.
Qed.

Lemma ObjectPool_negative k a w :
  max_members a < 0 ->
  force a = true \/ registry w !! klass_name k = None ->
  exists e w', ObjectPool k a w = (Raise e, w').
Proof.
  intros Hm Hfree. unfold ObjectPool, __call__.
  assert (H0 : exists w0,
             (if force a then _remove_pool k else ret tt) w = (Ok tt, w0) /\
             registry w0 !! klass_name k = None).
  { destruct (force a) eqn:Hf.
    - eexists. split; [reflexivity |]. simpl. apply lookup_delete_eq.
    - destruct Hfree as [? | Hn]; [done |]. by exists w. }
  destruct H0 as (w0 & E0 & Hn0).
  rewrite (bind_ok _ _ _ _ _ E0).
  unfold bind at 1, _pool_exists. rewrite Hn0.
  unfold type_call.
  destruct (init_negative (next_pid w0) k a (set_next_pid (S (next_pid w0)) w0) Hm)
    as (w1 & E1 & _).
  unfold bind at 1. unfold bind at 1. rewrite E1. by eexists _, _.
Qed.

(** A pool returned by [ObjectPool(k, ...)] is the one registered under the
    name of [k]. *)
Lemma ObjectPool_registers k a w pid w1 :
  ObjectPool k a w = (Ok pid, w1) ->
  registry w1 !! klass_name k = Some pid.
Proof.
  intros E.
  destruct (force a) eqn:Hf; [| destruct (registry w !! klass_name k) eqn:Hr].
  2: { rewrite (ObjectPool_cached k a _ w Hr Hf) in E. congruence. }
  all: destruct (Z_lt_le_dec (max_members a) 0) as [Hm | Hm].
  all: try (destruct (ObjectPool_negative k a w Hm) as (e & w' & E');
            [by auto | congruence]).
  all: destruct (ObjectPool_constructs k a w Hm) as (q & w' & E' & _ & R & _);
    [by auto |].
  all: rewrite E' in E; injection E as <- <-; rewrite R;
    apply lookup_insert_eq.
Qed.

(** C5: with [lazy] off and a number of members [N] that is not negative,
    [ObjectPool(k, ...)] constructing a pool leaves [N] members in its
    queue, each with the stats of a new member; for [N = 0] no member is
    made at all. *)
Theorem eager_fill k a w :
  0 <= max_members a ->
  lazy_ a = false ->
  force a = true \/ registry w !! klass_name k = None ->
  exists pid p w',
    ObjectPool k a w = (Ok pid, w') /\
    pools w' !! pid = Some p /\
    get_pool_size pid w' = (Ok (max_members a), w') /\
    Forall (fun x => fresh_stats (snd x)) (pool_queue p) /\
    (max_members a = 0 -> pool_queue p = [] /\ calls w' = calls w).
Proof.
  intros Hm Hl Hfree.
  destruct (ObjectPool_constructs k a w Hm Hfree)
    as (q & w' & E & Hps & _ & _ & Hlen & Hfr & Hc).
  unfold initial_fill in Hlen. rewrite Hl in Hlen.
  assert (Hp : pools w' !! next_pid w = Some (pool_of k a q)).
  { rewrite Hps. apply lookup_insert_eq. }
  exists (next_pid w), (pool_of k a q), w'.
  split; [exact E |]. split; [exact Hp |]. split; [| split; [exact Hfr |]].
  - rewrite (qsize_ok _ _ _ Hp). simpl. rewrite Hlen, Z2Nat.id; done.
  - intros H0. rewrite H0 in Hlen. simpl in *.
    destruct q; [| done]. rewrite Hc. simpl. by rewrite app_nil_r.
Qed.

Lemma eager_fill_witness :
  exists pid p w',
    ObjectPool Browser default_args (start (steady 0)) = (Ok pid, w') /\
    pools w' !! pid = Some p /\
    get_pool_size pid w' = (Ok (max_members default_args), w') /\
    Forall (fun x => fresh_stats (snd x)) (pool_queue p) /\
    (max_members default_args = 0 -> pool_queue p = [] /\
     calls w' = calls (start (steady 0))).
Proof.
  apply (eager_fill Browser default_args (start (steady 0))).
  - vm_compute. discriminate.
  - reflexivity.
  - right. reflexivity.
Defined.

(** C6: when a pool is registered under the name of the class, a call
    without [force] returns that very pool and changes nothing, whatever
    the other arguments are; a call with [force] (and a number of members
    that is not negative) returns a pool with another identity, which takes
    the place of the first in the registry. *)
Theorem registry_idempotence k pid w :
  wf w ->
  registry w !! klass_name k = Some pid ->
  (forall a, force a = false -> ObjectPool k a w = (Ok pid, w)) /\
  (forall a, force a = true -> 0 <= max_members a ->
     exists pid' w',
       ObjectPool k a w = (Ok pid', w') /\ pid' <> pid /\
       registry w' !! klass_name k = Some pid' /\
       pools w' !! pid = pools w !! pid).
Proof.
  intros [Wp Wr] Hr. split.
  - intros a Hf. by apply ObjectPool_cached.
  - intros a Hf Hm.
    destruct (ObjectPool_constructs k a w Hm) as (q & w' & E & Hps & R & _);
      [by left |].
    specialize (Wr _ _ Hr).
    exists (next_pid w), w'. split; [exact E |]. split; [lia |].
    split; [rewrite R; apply lookup_insert_eq |].
    rewrite Hps. apply lookup_insert_ne. lia.
Qed.

Lemma registry_idempotence_witness :
  let w := world_with default_pool (steady 0) in
  (forall a, force a = false -> ObjectPool Browser a w = (Ok 0%nat, w)) /\
  (forall a, force a = true -> 0 <= max_members a ->
     exists pid' w',
       ObjectPool Browser a w = (Ok pid', w') /\ pid' <> 0%nat /\
       registry w' !! klass_name Browser = Some pid' /\
       pools w' !! 0%nat = pools w !! 0%nat).
Proof.
  intros w. apply (registry_idempotence Browser 0 w).
  - apply world_with_wf.
  - reflexivity.
Defined.

(** C9: the registry is keyed by the name of the class.  For two classes
    with one name, [pool_exists] answers the same for both, and a call
    without [force] for the second returns the pool made for the first. *)
Theorem registry_keyed_by_name k1 k2 w :
  klass_name k1 = klass_name k2 ->
  pool_exists k1 w = pool_exists k2 w /\
  (forall a1 a2 pid w1,
     ObjectPool k1 a1 w = (Ok pid, w1) ->
     force a2 = false ->
     ObjectPool k2 a2 w1 = (Ok pid, w1) /\
     pool_exists k2 w1 = (Ok true, w1)).
Proof.
  intros Hn. split.
  - unfold pool_exists, _pool_exists. by rewrite Hn.
  - intros a1 a2 pid w1 E Hf.
    apply ObjectPool_registers in E. rewrite Hn in E. split.
    + by apply ObjectPool_cached.
    + unfold pool_exists, _pool_exists. by rewrite E.
Qed.

Lemma registry_keyed_by_name_witness :
  Browser <> Browser_twin /\
  pool_exists Browser (start (steady 0))
  = pool_exists Browser_twin (start (steady 0)) /\
  (forall a1 a2 pid w1,
     ObjectPool Browser a1 (start (steady 0)) = (Ok pid, w1) ->
     force a2 = false ->
     ObjectPool Browser_twin a2 w1 = (Ok pid, w1) /\
     pool_exists Browser_twin w1 = (Ok true, w1)).
Proof.
  split; [discriminate |].
  apply (registry_keyed_by_name Browser Browser_twin (start (steady 0))).
  reflexivity.
Defined.

(** * Destroying a pool *)

Lemma cleanup_calls_cons p x q :
  cleanup_calls p (x :: q) = cleanup_calls p [x] ++ cleanup_calls p q.
Proof. unfold cleanup_calls. by destruct (pool_cleanup_func p). Qed.

Lemma cleanup_calls_length p h q :
  pool_cleanup_func p = Some h -> length (cleanup_calls p q) = length q.
Proof. intros H. unfold cleanup_calls. rewrite H. apply length_map. Qed.

(** The loop of [destroy] ends when it may take out as many members as the
    queue holds; it calls the cleanup hook on each of them, oldest first. *)
Lemma destroy_loop_ok q : forall fuel pid p w,
  pools w !! pid = Some p ->
  pool_queue p = q ->
  (length q <= fuel)%nat ->
  exists w',
    destroy_loop fuel pid w = (Ok tt, w') /\
    pools w' = <[pid := with_queue [] p]> (pools w) /\
    calls w' = calls w ++ cleanup_calls p q /\
    registry w' = registry w /\
    next_pid w' = next_pid w /\
    next_oid w' = next_oid w /\
    clock w' = clock w /\
    stdout w' = stdout w.
Proof.
  induction q as [|[m s] q IH]; intros fuel pid p w Hp Hq Hl.
  - exists w. split.
    + destruct fuel; simpl;
        rewrite (bind_ok _ _ _ _ _ (qsize_ok _ _ _ Hp)), Hq; reflexivity.
    + rewrite insert_id; [| rewrite Hp, <- Hq; by destruct p].
      unfold cleanup_calls. destruct (pool_cleanup_func p); simpl;
        by rewrite app_nil_r.
  - destruct fuel as [|fuel]; [simpl in Hl; lia |].
    simpl in Hl. simpl.
    rewrite (bind_ok _ _ _ _ _ (qsize_ok _ _ _ Hp)), Hq.
    change (Z.of_nat (length ((m, s) :: q)) =? 0) with false. cbv iota.
    rewrite (bind_ok _ _ _ _ _ (queue_get_ok _ _ _ _ _ Hp Hq)).
    set (p1 := with_queue q p).
    set (w1 := set_pools (<[pid := p1]> (pools w)) w).
    assert (Hp1 : pools w1 !! pid = Some p1) by apply lookup_insert_eq.
    rewrite (bind_ok _ _ _ _ _ (member_cleanup_ok _ _ m s _ Hp1)).
    match goal with |- context [destroy_loop fuel pid ?w2] =>
      destruct (IH fuel pid p1 w2)
        as (w' & E & Hps & Hc & Hr & Hn & Ho & Hk & Hs)
    end; [exact Hp1 | reflexivity | lia |].
    exists w'. split; [exact E |].
    rewrite Hps, Hc, Hr, Hn, Ho, Hk, Hs. simpl.
    rewrite insert_insert_eq, (cleanup_calls_cons p (m, s) q), <- app_assoc.
    done.
Qed.

Lemma destroy_ok pid p w :
  pools w !! pid = Some p ->
  exists w',
    destroy pid w = (Ok tt, w') /\
    pools w' = <[pid := with_queue [] p]> (pools w) /\
    calls w' = calls w ++ cleanup_calls p (pool_queue p) /\
    registry w' = delete (klass_name (klass p)) (registry w) /\
    next_pid w' = next_pid w /\
    next_oid w' = next_oid w /\
    clock w' = clock w /\
    stdout w' = stdout w.
Proof.
  intros Hp. unfold destroy.
  rewrite (bind_ok _ _ _ _ _ (self_ok _ _ _ Hp)).
  destruct (destroy_loop_ok (pool_queue p) (length (pool_queue p)) pid p w Hp)
    as (w' & E & Hps & Hc & Hr & Hn & Ho & Hk & Hs); [done | lia |].
  rewrite (bind_ok _ _ _ _ _ E).
  eexists. split; [reflexivity |]. simpl.
  rewrite Hps, Hc, Hr, Hn, Ho, Hk, Hs. done.
Qed.

(** More fuel does not change what the loop does. *)
Lemma destroy_loop_fuel pid p w fuel :
  pools w !! pid = Some p ->
  (length (pool_queue p) <= fuel)%nat ->
  destroy_loop fuel pid w = destroy_loop (length (pool_queue p)) pid w.
Proof.
  revert fuel pid p w.
  assert (G : forall q fuel1 fuel2 pid p w,
             pools w !! pid = Some p -> pool_queue p = q ->
             (length q <= fuel1)%nat -> (length q <= fuel2)%nat ->
             destroy_loop fuel1 pid w = destroy_loop fuel2 pid w).
  { induction q as [|[m s] q IH]; intros fuel1 fuel2 pid p w Hp Hq H1 H2.
    - destruct fuel1, fuel2; simpl;
        rewrite !(bind_ok _ _ _ _ _ (qsize_ok _ _ _ Hp)), Hq; reflexivity.
    - destruct fuel1 as [|f1]; [simpl in H1; lia |].
      destruct fuel2 as [|f2]; [simpl in H2; lia |].
      simpl in H1, H2. simpl.
      rewrite !(bind_ok _ _ _ _ _ (qsize_ok _ _ _ Hp)), Hq.
      change (Z.of_nat (length ((m, s) :: q)) =? 0) with false. cbv iota.
      rewrite !(bind_ok _ _ _ _ _ (queue_get_ok _ _ _ _ _ Hp Hq)).
      assert (Hp1 : pools (set_pools (<[pid := with_queue q p]> (pools w)) w)
                    !! pid = Some (with_queue q p)) by apply lookup_insert_eq.
      rewrite !(bind_ok _ _ _ _ _ (member_cleanup_ok _ _ m s _ Hp1)).
      apply (IH f1 f2 pid (with_queue q p)); [| done | lia | lia].
      apply lookup_insert_eq. }
  intros fuel pid p w Hp Hl. by apply (G (pool_queue p) _ _ pid p).
Qed.

(** C7: [destroy] on a pool with [K] queued members calls the cleanup hook
    once for each of them, in the order of the queue ([K] calls when there
    is a hook, none otherwise), leaves the queue empty and takes the name
    of the class out of the registry; the next [ObjectPool] call for the
    class then makes a pool that did not exist before. *)
Theorem destroy_cleans_and_deregisters pid p w :
  wf w ->
  pools w !! pid = Some p ->
  exists w',
    destroy pid w = (Ok tt, w') /\
    calls w' = calls w ++ cleanup_calls p (pool_queue p) /\
    (forall h, pool_cleanup_func p = Some h ->
       cleanup_calls p (pool_queue p)
       = map (fun x => EvCleanup h (fst x) (snd x)) (pool_queue p) /\
       length (cleanup_calls p (pool_queue p)) = length (pool_queue p)) /\
    (pool_cleanup_func p = None -> cleanup_calls p (pool_queue p) = []) /\
    get_pool_size pid w' = (Ok 0, w') /\
    pool_exists (klass p) w' = (Ok false, w') /\
    (forall a, 0 <= max_members a ->
       exists pid' w'',
         ObjectPool (klass p) a w' = (Ok pid', w'') /\
         pid' <> pid /\ pools w' !! pid' = None /\
         registry w'' !! klass_name (klass p) = Some pid').
Proof.
  intros [Wp Wr] Hp.
  destruct (destroy_ok pid p w Hp)
    as (w' & E & Hps & Hc & Hr & Hn & _).
  exists w'. split; [exact E |]. split; [exact Hc |].
  assert (Hp' : pools w' !! pid = Some (with_queue [] p)).
  { rewrite Hps. apply lookup_insert_eq. }
  assert (Hfree : registry w' !! klass_name (klass p) = None).
  { rewrite Hr. apply lookup_delete_eq. }
  split; [| split; [| split; [| split]]].
  - intros h Hh. split; [| by apply (cleanup_calls_length p h)].
    unfold cleanup_calls. by rewrite Hh.
  - intros Hh. unfold cleanup_calls. by rewrite Hh.
  - by rewrite (qsize_ok _ _ _ Hp').
  - unfold pool_exists, _pool_exists. by rewrite Hfree.
  - intros a Hm.
    destruct (ObjectPool_constructs (klass p) a w' Hm) as (q & w'' & E2 & _ & R & _);
      [by right |].
    exists (next_pid w'), w''. split; [exact E2 |].
    pose proof (Wp _ _ Hp) as Hlt. rewrite Hn. split; [lia |]. split.
    + rewrite Hps, lookup_insert_ne by lia.
      destruct (pools w !! next_pid w) eqn:Hx; [| done].
      apply Wp in Hx. lia.
    + rewrite R, Hn. apply lookup_insert_eq.
Qed.

Lemma destroy_cleans_and_deregisters_witness :
  let p := hooked_pool in
  let w := world_with p (steady 5) in
  exists w',
    destroy 0 w = (Ok tt, w') /\
    calls w' = calls w ++ cleanup_calls p (pool_queue p) /\
    (forall h, pool_cleanup_func p = Some h ->
       cleanup_calls p (pool_queue p)
       = map (fun x => EvCleanup h (fst x) (snd x)) (pool_queue p) /\
       length (cleanup_calls p (pool_queue p)) = length (pool_queue p)) /\
    (pool_cleanup_func p = None -> cleanup_calls p (pool_queue p) = []) /\
    get_pool_size 0 w' = (Ok 0, w') /\
    pool_exists (klass p) w' = (Ok false, w') /\
    (forall a, 0 <= max_members a ->
       exists pid' w'',
         ObjectPool (klass p) a w' = (Ok pid', w'') /\
         pid' <> 0%nat /\ pools w' !! pid' = None /\
         registry w'' !! klass_name (klass p) = Some pid').
Proof.
  intros p w. apply (destroy_cleans_and_deregisters 0 p w).
  - apply world_with_wf.
  - reflexivity.
Defined.

(** C10: [destroy] takes the name of the pool's class out of the registry
    whichever pool is registered under it.  Called on a pool that a forced
    call has replaced, it removes the entry of the replacement: afterwards
    [pool_exists] is false, while the replacement is as it was and none of
    its members has been cleaned up. *)
Theorem destroy_stale_pool pid1 pid2 p1 w :
  pools w !! pid1 = Some p1 ->
  registry w !! klass_name (klass p1) = Some pid2 ->
  pid1 <> pid2 ->
  exists w',
    destroy pid1 w = (Ok tt, w') /\
    pool_exists (klass p1) w' = (Ok false, w') /\
    pools w' !! pid2 = pools w !! pid2 /\
    calls w' = calls w ++ cleanup_calls p1 (pool_queue p1).
Proof.
  intros Hp Hr Hne.
  destruct (destroy_ok pid1 p1 w Hp) as (w' & E & Hps & Hc & Hr' & _).
  exists w'. split; [exact E |]. split; [| split; [| exact Hc]].
  - unfold pool_exists, _pool_exists. by rewrite Hr', lookup_delete_eq.
  - rewrite Hps. by apply lookup_insert_ne.
Qed.

Lemma destroy_stale_pool_witness :
  pool_exists Browser after_force = (Ok true, after_force) /\
  is_Some (pools after_force !! 1%nat) /\
  exists w',
    destroy 0 after_force = (Ok tt, w') /\
    pool_exists (klass stale_pool) w' = (Ok false, w') /\
    pools w' !! 1%nat = pools after_force !! 1%nat /\
    calls w' = calls after_force ++ cleanup_calls stale_pool (pool_queue stale_pool).
Proof.
  split; [vm_compute; reflexivity |].
  split; [vm_compute; eexists; reflexivity |].
  apply (destroy_stale_pool 0 1 stale_pool after_force).
  - vm_compute. reflexivity.
  - vm_compute. reflexivity.
  - discriminate.
Defined.

(** * The scoped borrow *)

(** The [with] statement on the executor of a pool. *)
Lemma py_with_get {A} pid (body : Member * Stats -> M A)
    w m s w1 r w2 :
  get_member pid w = (Ok (m, s), w1) ->
  body (m, s) w1 = (r, w2) ->
  py_with (get pid) body w
  = match queue_member pid m s w2 with
    | (Ok _, w3) =>
        (match r with
         | Ok a => Ok (Some a)
         | Raise e => Raise e
         end, w3)
    | (Raise e', w3) => (Raise e', w3)
    end.
Proof.
  intros Hb Hbody. unfold py_with, __enter__, get, Executor__init__.
  cbn [ex_pool].
  erewrite bind_ok; [| rewrite (bind_ok _ _ _ _ _ Hb); reflexivity].
  cbv beta iota. rewrite Hbody. unfold __exit__. cbn [member member_stats ex_pool].
  destruct r as [a | e]; unfold bind;
    destruct (queue_member pid m s w2) as [[[] | e'] w3]; reflexivity.
Qed.

(** C8: in [with pool.get() as (member, stats): body], the pair that
    [get_member] returned is handed to [queue_member] in the world the body
    left, whether the body returned or raised.  When the release itself
    returns, the statement ends the way the body did: an exception of the
    body is raised again. *)
Theorem scoped_borrow_releases {A} pid (body : Member * Stats -> M A)
    w m s w1 r w2 :
  get_member pid w = (Ok (m, s), w1) ->
  body (m, s) w1 = (r, w2) ->
  py_with (get pid) body w
  = match queue_member pid m s w2 with
    | (Ok _, w3) =>
        (match r with
         | Ok a => Ok (Some a)
         | Raise e => Raise e
         end, w3)
    | (Raise e', w3) => (Raise e', w3)
    end.
Proof. apply py_with_get. Qed.

Lemma scoped_borrow_releases_witness :
  let w := world_with hooked_pool (steady 5) in
  let body : Member * Stats -> M unit := fun _ => raise (UserError 1) in
  let w1 := snd (get_member 0 w) in
  py_with (get 0) body w
  = match queue_member 0 browser0 used_thrice w1 with
    | (Ok _, w3) =>
        (match @Raise unit (UserError 1) with
         | Ok a => Ok (Some a)
         | Raise e => Raise e
         end, w3)
    | (Raise e', w3) => (Raise e', w3)
    end
  /\ fst (py_with (get 0) body w) = Raise (UserError 1).
Proof.
  intros w body w1. split.
  - apply (scoped_borrow_releases 0 body w browser0 used_thrice w1
             (Raise (UserError 1)) w1).
    + vm_compute. reflexivity.
    + reflexivity.
  - vm_compute. reflexivity.
Defined.

(** * Borrow and release cycles *)

Lemma later_refl c : later c c.
Proof. by exists 0%nat. Qed.

Lemma later_tick c c' : later c c' -> later c (tick c').
Proof. intros [k ->]. by exists (S k). Qed.

Lemma later_trans c1 c2 c3 : later c1 c2 -> later c2 c3 -> later c1 c3.
Proof.
  intros [k ->] [j ->]. exists (j + k)%nat. by rewrite Nat.iter_add.
Qed.

Lemma never_past_now b c : never_past b c -> clock_now c <= b.
Proof. unfold never_past. destruct (clock_ticks c); simpl; tauto. Qed.

Lemma never_past_tick b c : never_past b c -> never_past b (tick c).
Proof.
  unfold never_past, tick, read_clock. destruct c as [t [|d ds]]; simpl;
    tauto.
Qed.

Lemma never_past_later b c c' : later c c' -> never_past b c -> never_past b c'.
Proof.
  intros [k ->] H. induction k as [|k IH]; [done |].
  simpl. by apply never_past_tick.
Qed.

Lemma ageless_not_over_age p s c : ageless p s c -> ~ over_age p s c.
Proof.
  intros [H0 | (t0 & Hc & Hn)] [HE Ho]; [done |].
  rewrite Hc in Ho. apply never_past_now in Hn. lia.
Qed.

Lemma ageless_later p s s' c c' :
  created_at s' = created_at s -> later c c' ->
  ageless p s c -> ageless p s' c'.
Proof.
  intros Hc Hl [H0 | (t0 & Ht & Hn)]; [by left | right].
  exists t0. rewrite Hc. split; [done |]. by apply (never_past_later _ c).
Qed.

(** The clock only moves on while the pair is judged. *)
Lemma internal_check_later pid s w :
  later (clock w) (clock (snd (_internal_invalid_check pid s w))).
Proof.
  unfold _internal_invalid_check, _get_expiry_time, int_lt_count.
  unfold bind, self, datetime_now, print, ret, raise.
  destruct w as [c no np ps rg cl out]; simpl.
  destruct (ps !! pid) as [p|]; simpl; [| apply later_refl].
  destruct (created_at s); simpl;
    repeat match goal with
           | |- context [ps !! pid] => destruct (ps !! pid); simpl
           | |- context [if ?b then _ else _] => destruct b; simpl
           | |- context [match count s with _ => _ end] =>
               destruct (count s); simpl
           end;
    first [ apply later_refl
          | apply later_tick, later_refl
          | apply later_tick, later_tick, later_refl ].
Qed.

Lemma judged_invalid_later pid p m s w w' b :
  pools w !! pid = Some p ->
  judged_invalid pid m s w = (Ok b, w') ->
  later (clock w) (clock w').
Proof.
  intros Hp. unfold judged_invalid.
  rewrite (bind_ok _ _ _ _ _ (self_ok _ _ _ Hp)).
  destruct (pool_check_func p) as [f|].
  - erewrite bind_ok; [| reflexivity].
    pose proof (internal_check_later pid s
                  (set_calls (calls w ++ [EvCheck m s (f m s)]) w)) as L.
    unfold bind. destruct (_internal_invalid_check _ _ _) as [[b'|e] w1];
      [| done].
    intros [= _ <-]. exact L.
  - erewrite bind_ok; [| reflexivity].
    pose proof (internal_check_later pid s w) as L.
    unfold bind. destruct (_internal_invalid_check _ _ _) as [[b'|e] w1];
      [| done].
    intros [= _ <-]. exact L.
Qed.

Lemma cleanups_app l1 l2 : cleanups (l1 ++ l2) = cleanups l1 ++ cleanups l2.
Proof. apply List.filter_app. Qed.

Lemma cleanups_check_event p m s :
  cleanups (match pool_check_func p with
            | Some f => [EvCheck m s (f m s)]
            | None => []
            end) = [].
Proof. by destruct (pool_check_func p). Qed.

Lemma cleanups_cleanup_calls p q : cleanups (cleanup_calls p q) = cleanup_calls p q.
Proof.
  unfold cleanup_calls. destruct (pool_cleanup_func p); [| done].
  induction q as [|x q IH]; [done |]. simpl. by rewrite IH.
Qed.

(** [__check_and_get_member] on a pair that is judged valid. *)
Lemma check_and_get_valid pid p m s n w :
  pools w !! pid = Some p ->
  count s = Some n ->
  check_verdict p m s = false ->
  ~ over_reused p n ->
  ~ over_age p s (clock w) ->
  exists s' w',
    __check_and_get_member pid m s w = (Ok (m, s'), w') /\
    count s' = Some (n + 1) /\
    created_at s' = created_at s /\
    new s' = false /\
    pools w' = pools w /\
    next_oid w' = next_oid w /\
    registry w' = registry w /\
    next_pid w' = next_pid w /\
    cleanups (calls w') = cleanups (calls w) /\
    later (clock w) (clock w').
Proof.
  intros Hp Hn Hc Hr Ha.
  destruct (judged_invalid_ok pid p m s n w Hp Hn)
    as (w1 & E & Hps & Ho & Hrg & Hnp & Hcl).
  assert (B : check_verdict p m s || internal_verdict p s n (clock w) = false).
  { rewrite Hc. cbn [orb]. apply not_true_is_false.
    rewrite internal_verdict_true. tauto. }
  rewrite B in E.
  pose proof (judged_invalid_later _ _ _ _ _ _ _ Hp E) as L.
  unfold __check_and_get_member. rewrite (bind_ok _ _ _ _ _ E).
  unfold __update_member_stats. rewrite Hn.
  eexists _, _. split; [reflexivity |]. simpl.
  rewrite Hps, Ho, Hrg, Hnp, Hcl, cleanups_app, cleanups_check_event, app_nil_r.
  repeat split; try done. by apply later_tick.
Qed.

(** [__check_and_get_member] on a pair whose count is over the limit. *)
Lemma check_and_get_over_reused pid p m s n w :
  pools w !! pid = Some p ->
  count s = Some n ->
  over_reused p n ->
  exists s' w',
    __check_and_get_member pid m s w = (Ok (fabricated p w, s'), w') /\
    count s' = Some 0 /\
    new s' = false /\
    pools w' = pools w /\
    next_oid w' = S (next_oid w) /\
    registry w' = registry w /\
    next_pid w' = next_pid w /\
    cleanups (calls w') = cleanups (calls w) ++ cleanup_calls p [(m, s)].
Proof.
  intros Hp Hn Hr.
  destruct (judged_invalid_ok pid p m s n w Hp Hn)
    as (w1 & E & Hps & Ho & Hrg & Hnp & Hcl).
  assert (B : check_verdict p m s || internal_verdict p s n (clock w) = true).
  { rewrite orb_true_iff, internal_verdict_true. tauto. }
  rewrite B in E.
  unfold __check_and_get_member. rewrite (bind_ok _ _ _ _ _ E).
  unfold __cleanup_and_get_member.
  assert (Hp1 : pools w1 !! pid = Some p) by (by rewrite Hps).
  rewrite (bind_ok _ _ _ _ _ (member_cleanup_ok _ _ m s _ Hp1)).
  erewrite bind_ok; [| by apply (create_new_instance_ok pid p)].
  rewrite (bind_ok _ _ _ _ _ (get_default_stats_ok _ _)).
  unfold fabricated at 1 2. simpl. rewrite Ho.
  eexists _, _. split; [reflexivity |]. simpl.
  rewrite Hps, Hrg, Hnp, Hcl, !cleanups_app, cleanups_check_event,
    app_nil_r, cleanups_cleanup_calls. simpl. rewrite app_nil_r. done.
Qed.

(** [get_member] on a queue that is not empty, without [pre_check]. *)
Lemma get_member_queued pid p x q w :
  pools w !! pid = Some p ->
  pool_queue p = x :: q ->
  pre_check p = false ->
  get_member pid w
  = (Ok x, set_pools (<[pid := with_queue q p]> (pools w)) w).
Proof.
  intros Hp Hq Hpre. unfold get_member.
  rewrite (bind_ok _ _ _ _ _ (qsize_ok _ _ _ Hp)), Hq.
  change (Z.of_nat (length (x :: q)) =? 0) with false. cbv iota.
  rewrite (bind_ok _ _ _ _ _ (queue_get_ok _ _ _ _ _ Hp Hq)).
  destruct x as [m s]. cbv beta iota.
  erewrite bind_ok; [| by apply self_ok, lookup_insert_eq].
  cbn [pre_check with_queue]. by rewrite Hpre.
Qed.

(** [queue_member] with [post_check] on a pair that is judged valid. *)
Lemma queue_member_valid pid p m s n w :
  pools w !! pid = Some p ->
  post_check p = true ->
  count s = Some n ->
  check_verdict p m s = false ->
  ~ over_reused p n ->
  ~ over_age p s (clock w) ->
  exists s' w',
    queue_member pid m s w = (Ok tt, w') /\
    pools w' = <[pid := with_queue (pool_queue p ++ [(m, s')]) p]> (pools w) /\
    count s' = Some (n + 1) /\
    created_at s' = created_at s /\
    next_oid w' = next_oid w /\
    cleanups (calls w') = cleanups (calls w) /\
    later (clock w) (clock w').
Proof.
  intros Hp Hpost Hn Hc Hr Ha.
  destruct (check_and_get_valid pid p m s n w Hp Hn Hc Hr Ha)
    as (s' & w1 & E & Hcnt & Hcr & _ & Hps & Ho & _ & _ & Hcl & L).
  unfold queue_member.
  rewrite (bind_ok _ _ _ _ _ (self_ok _ _ _ Hp)), Hpost.
  rewrite (bind_ok _ _ _ _ _ E).
  assert (Hp1 : pools w1 !! pid = Some p) by (by rewrite Hps).
  rewrite (queue_put_ok _ _ _ _ Hp1).
  eexists _, _. split; [reflexivity |]. simpl. by rewrite Hps.
Qed.

(** [queue_member] with [post_check] on a pair whose count is over the
    limit: the cleanup hook gets the pair and a new member is queued. *)
Lemma queue_member_over_reused pid p m s n w :
  pools w !! pid = Some p ->
  post_check p = true ->
  count s = Some n ->
  over_reused p n ->
  exists s' w',
    queue_member pid m s w = (Ok tt, w') /\
    pools w' = <[pid := with_queue (pool_queue p ++ [(fabricated p w, s')]) p]>
                 (pools w) /\
    count s' = Some 0 /\
    new s' = false /\
    next_oid w' = S (next_oid w) /\
    cleanups (calls w') = cleanups (calls w) ++ cleanup_calls p [(m, s)].
Proof.
  intros Hp Hpost Hn Hr.
  destruct (check_and_get_over_reused pid p m s n w Hp Hn Hr)
    as (s' & w1 & E & Hcnt & Hnew & Hps & Ho & _ & _ & Hcl).
  unfold queue_member.
  rewrite (bind_ok _ _ _ _ _ (self_ok _ _ _ Hp)), Hpost.
  rewrite (bind_ok _ _ _ _ _ E).
  assert (Hp1 : pools w1 !! pid = Some p) by (by rewrite Hps).
  rewrite (queue_put_ok _ _ _ _ Hp1).
  eexists _, _. split; [reflexivity |]. simpl. by rewrite Hps.
Qed.

(** One cycle on a pool whose queue holds the single pair [(m, s)]. *)
Lemma cycle_valid pid p m s n w :
  pools w !! pid = Some (with_queue [(m, s)] p) ->
  pre_check p = false ->
  post_check p = true ->
  count s = Some n ->
  check_verdict p m s = false ->
  ~ over_reused p n ->
  ~ over_age p s (clock w) ->
  exists s' w',
    cycle pid w = (Ok (Some (m, s)), w') /\
    pools w' !! pid = Some (with_queue [(m, s')] p) /\
    count s' = Some (n + 1) /\
    created_at s' = created_at s /\
    next_oid w' = next_oid w /\
    cleanups (calls w') = cleanups (calls w) /\
    later (clock w) (clock w').
Proof.
  intros Hp Hpre Hpost Hn Hc Hr Ha.
  pose proof (get_member_queued pid _ (m, s) [] w Hp eq_refl Hpre) as G.
  unfold cycle. rewrite (py_with_get pid _ w m s _ (Ok (m, s)) _ G eq_refl).
  match type of G with _ = (_, ?w0) => set (w1 := w0) in * end.
  assert (Hp1 : pools w1 !! pid = Some (with_queue [] p))
    by apply lookup_insert_eq.
  destruct (queue_member_valid pid (with_queue [] p) m s n w1 Hp1 Hpost Hn Hc Hr Ha)
    as (s' & w2 & E & Hps & Hcnt & Hcr & Ho & Hcl & L).
  rewrite E. exists s', w2. split; [reflexivity |].
  split; [rewrite Hps; apply lookup_insert_eq |]. done.
Qed.

Lemma cycle_over_reused pid p m s n w :
  pools w !! pid = Some (with_queue [(m, s)] p) ->
  pre_check p = false ->
  post_check p = true ->
  count s = Some n ->
  over_reused p n ->
  exists s' w',
    cycle pid w = (Ok (Some (m, s)), w') /\
    pools w' !! pid = Some (with_queue [(fabricated p w, s')] p) /\
    count s' = Some 0 /\
    new s' = false /\
    next_oid w' = S (next_oid w) /\
    cleanups (calls w') = cleanups (calls w) ++ cleanup_calls p [(m, s)].
Proof.
  intros Hp Hpre Hpost Hn Hr.
  pose proof (get_member_queued pid _ (m, s) [] w Hp eq_refl Hpre) as G.
  unfold cycle. rewrite (py_with_get pid _ w m s _ (Ok (m, s)) _ G eq_refl).
  match type of G with _ = (_, ?w0) => set (w1 := w0) in * end.
  assert (Hp1 : pools w1 !! pid = Some (with_queue [] p))
    by apply lookup_insert_eq.
  destruct (queue_member_over_reused pid (with_queue [] p) m s n w1 Hp1 Hpost Hn Hr)
    as (s' & w2 & E & Hps & Hcnt & Hnew & Ho & Hcl).
  rewrite E. exists s', w2. split; [reflexivity |].
  split; [rewrite Hps; apply lookup_insert_eq |]. done.
Qed.

(** As long as the count stays within the limit the cycles keep the
    member and add one to its count each. *)
Lemma cycles_valid pid p m k : forall s n w,
  pools w !! pid = Some (with_queue [(m, s)] p) ->
  pre_check p = false ->
  post_check p = true ->
  count s = Some n ->
  (forall s', check_verdict p m s' = false) ->
  n + Z.of_nat k <= max_reusable_count p + 1 ->
  ageless p s (clock w) ->
  exists s' w',
    cycles k pid w = (Ok tt, w') /\
    pools w' !! pid = Some (with_queue [(m, s')] p) /\
    count s' = Some (n + Z.of_nat k) /\
    created_at s' = created_at s /\
    next_oid w' = next_oid w /\
    cleanups (calls w') = cleanups (calls w) /\
    later (clock w) (clock w').
Proof.
  induction k as [|k IH]; intros s n w Hp Hpre Hpost Hn Hc Hk Ha.
  - exists s, w. simpl. rewrite Z.add_0_r.
    repeat split; try done. apply later_refl.
  - destruct (cycle_valid pid p m s n w Hp Hpre Hpost Hn (Hc s))
      as (s1 & w1 & E1 & Hp1 & Hn1 & Hcr1 & Ho1 & Hcl1 & L1).
    { intros [_ H]. lia. }
    { by apply ageless_not_over_age. }
    destruct (IH s1 (n + 1) w1 Hp1 Hpre Hpost Hn1 Hc)
      as (s2 & w2 & E2 & Hp2 & Hn2 & Hcr2 & Ho2 & Hcl2 & L2).
    { lia. }
    { by apply (ageless_later p s s1 (clock w)). }
    exists s2, w2. split.
    + simpl. by rewrite (bind_ok _ _ _ _ _ E1).
    + rewrite Hp2, Hn2, Hcr2, Ho2, Hcl2, Hcr1, Ho1, Hcl1.
      repeat split; try done.
      * f_equal. lia.
      * by apply (later_trans _ (clock w1)).
Qed.

Lemma cycles_snoc pid k : forall w,
  cycles (S k) pid w
  = match cycles k pid w with
    | (Ok _, w1) => (cycle pid ;; ret tt) w1
    | (Raise e, w1) => (Raise e, w1)
    end.
Proof.
  induction k as [|k IH]; intros w; [reflexivity |].
  change (cycles (S (S k)) pid w)
    with (bind (cycle pid) (fun _ => cycles (S k) pid) w).
  change (cycles (S k) pid w)
    with (bind (cycle pid) (fun _ => cycles k pid) w).
  unfold bind at 1 2. destruct (cycle pid w) as [[a | e] w1]; [| done].
  rewrite IH. reflexivity.
Qed.

(** C2, as the specification words it, fails: with a limit of one reuse,
    cleanup hook and release check on, the member made at construction
    (count 0) is still the queued one after two cycles, with a count of 2,
    and the cleanup hook has not been called. *)
Lemma not_replaced_after_limit_plus_one :
  queue_of 0 reuse_once_world
  = Some [(browser0, default_stats true (steady 0))] /\
  ~ replaced_after (Z.to_nat (max_reusable reuse_once_args) + 1) 0 browser0
      reuse_once_world.
Proof.
  split; [vm_compute; reflexivity |].
  intros (m' & s' & w' & E & Hq & Hne & _).
  assert (E' : cycles 2 0 reuse_once_world
               = (Ok tt, snd (cycles 2 0 reuse_once_world)))
    by (vm_compute; reflexivity).
  change (Z.to_nat (max_reusable reuse_once_args) + 1)%nat with 2%nat in E.
  rewrite E' in E. injection E as Ew. rewrite <- Ew in Hq.
  assert (Hq' : queue_of 0 (snd (cycles 2 0 reuse_once_world))
                = Some [(browser0,
                         {| count := Some 2; new := false;
                            created_at := Some 0; last_used := 0 |})])
    by (vm_compute; reflexivity).
  pose proof (eq_trans (eq_sym Hq) Hq') as H. injection H as -> _.
  by apply Hne.
Qed.

(** C2 (amended): take a pool with a limit of [R >= 1] reuses, the release
    check on and the borrow check off, whose check hook does not reject and
    whose member does not expire by age, and whose queue holds one member
    with count 0.  After [R + 1] cycles the queue still holds that member,
    with count [R + 1], and the cleanup hook has not been called.  The
    release of cycle [R + 2] replaces it: after [R + 2] cycles the queue
    holds a member with another identity and count 0, and the cleanup hook
    has been called once, on the old member (not at all when the pool has
    no cleanup hook). *)
Theorem reuse_limit_replacement pid p m s w :
  pools w !! pid = Some p ->
  pool_queue p = [(m, s)] ->
  count s = Some 0 ->
  1 <= max_reusable_count p ->
  pre_check p = false ->
  post_check p = true ->
  (forall s', check_verdict p m s' = false) ->
  ageless p s (clock w) ->
  (oid m < next_oid w)%nat ->
  exists s1 w1,
    cycles (Z.to_nat (max_reusable_count p) + 1) pid w = (Ok tt, w1) /\
    queue_of pid w1 = Some [(m, s1)] /\
    count s1 = Some (max_reusable_count p + 1) /\
    cleanups (calls w1) = cleanups (calls w) /\
    exists m' s2 w2,
      cycles (Z.to_nat (max_reusable_count p) + 2) pid w = (Ok tt, w2) /\
      queue_of pid w2 = Some [(m', s2)] /\
      m' <> m /\
      count s2 = Some 0 /\
      new s2 = false /\
      cleanups (calls w2) = cleanups (calls w) ++ cleanup_calls p [(m, s1)].
Proof.
  intros Hp Hq Hn HR Hpre Hpost Hc Ha Hoid.
  assert (Hp' : pools w !! pid = Some (with_queue [(m, s)] p)).
  { rewrite Hp. f_equal. rewrite <- Hq. by destruct p. }
  set (R := Z.to_nat (max_reusable_count p)).
  destruct (cycles_valid pid p m (R + 1) s 0 w Hp' Hpre Hpost Hn Hc)
    as (s1 & w1 & E1 & Hp1 & Hn1 & Hcr1 & Ho1 & Hcl1 & L1); [lia | done |].
  assert (Hn1' : count s1 = Some (max_reusable_count p + 1))
    by (rewrite Hn1; f_equal; lia).
  exists s1, w1. split; [exact E1 |].
  split; [unfold queue_of; by rewrite Hp1 |].
  split; [exact Hn1' |]. split; [exact Hcl1 |].
  destruct (cycle_over_reused pid p m s1 _ w1 Hp1 Hpre Hpost Hn1')
    as (s2 & w2 & E2 & Hp2 & Hn2 & Hnew2 & Ho2 & Hcl2).
  { split; lia. }
  exists (fabricated p w1), s2, w2. split.
  - replace (R + 2)%nat with (S (R + 1)) by lia.
    rewrite cycles_snoc, E1. by rewrite (bind_ok _ _ _ _ _ E2).
  - split; [unfold queue_of; by rewrite Hp2 |].
    split; [| by rewrite Hcl2, Hcl1].
    intros <-. simpl in Hoid. lia.
Qed.

Lemma reuse_limit_replacement_witness :
  let p := pool_of Browser reuse_once_args
             [(browser0, default_stats true (steady 0))] in
  let w := reuse_once_world in
  exists s1 w1,
    cycles (Z.to_nat (max_reusable_count p) + 1) 0 w = (Ok tt, w1) /\
    queue_of 0 w1 = Some [(browser0, s1)] /\
    count s1 = Some (max_reusable_count p + 1) /\
    cleanups (calls w1) = cleanups (calls w) /\
    exists m' s2 w2,
      cycles (Z.to_nat (max_reusable_count p) + 2) 0 w = (Ok tt, w2) /\
      queue_of 0 w2 = Some [(m', s2)] /\
      m' <> browser0 /\
      count s2 = Some 0 /\
      new s2 = false /\
      cleanups (calls w2)
      = cleanups (calls w) ++ cleanup_calls p [(browser0, s1)].
Proof.
  intros p w.
  apply (reuse_limit_replacement 0 p browser0
           (default_stats true (steady 0)) w).
  - vm_compute. reflexivity.
  - reflexivity.
  - reflexivity.
  - vm_compute. discriminate.
  - reflexivity.
  - reflexivity.
  - reflexivity.
  - left. reflexivity.
  - vm_compute. lia.
Defined.

(** * Further properties of the module *)

(** ** Construction *)

(** X1: [ObjectPool(k, ...)] with a negative [max_members], on a path that
    constructs (the name is free, or [force] is on), raises the exception
    of [__init__]; no member is made and nothing is printed, and no pool is
    registered under the name afterwards: with [force] the entry that was
    there is gone although no pool took its place. *)
Theorem negative_max_members_rejected k a w :
  max_members a < 0 ->
  force a = true \/ registry w !! klass_name k = None ->
  exists w',
    ObjectPool k a w
    = (Raise (Exception "max_members should not be negative number."), w') /\
    pool_exists k w' = (Ok false, w') /\
    (forall name, name <> klass_name k ->
       registry w' !! name = registry w !! name) /\
    calls w' = calls w /\
    stdout w' = stdout w.
Proof.
  intros Hm Hfree. unfold ObjectPool, __call__.
  assert (H0 : exists w0,
             (if force a then _remove_pool k else ret tt) w = (Ok tt, w0) /\
             registry w0 = delete (klass_name k) (registry w) /\
             calls w0 = calls w /\ stdout w0 = stdout w).
  { destruct (force a).
    - eexists. split; [reflexivity |]. done.
    - destruct Hfree as [? | Hn]; [done |]. exists w.
      split; [reflexivity |]. by rewrite delete_id. }
  destruct H0 as (w0 & E0 & Hr0 & Hc0 & Ho0).
  rewrite (bind_ok _ _ _ _ _ E0).
  assert (Hn0 : registry w0 !! klass_name k = None)
    by (rewrite Hr0; apply lookup_delete_eq).
  unfold bind at 1, _pool_exists. rewrite Hn0.
  unfold type_call, __init__.
  unfold bind at 1. unfold bind at 1. unfold bind at 1.
  unfold setattrs at 1. unfold bind at 1.
  erewrite self_ok by apply lookup_insert_eq.
  cbn [max_pool_object].
  replace (max_members a >=? 0) with false
    by (symmetry; apply not_true_is_false; rewrite Z.geb_le; lia).
  cbn [negb]. unfold bind at 1. unfold raise at 1.
  eexists. split; [reflexivity |].
  unfold pool_exists, _pool_exists. simpl. rewrite Hn0, Hr0, Hc0, Ho0.
  repeat split; try done.
  intros name Hne. by rewrite lookup_delete_ne.
Qed.

Lemma negative_max_members_rejected_witness :
  let w := world_with default_pool (steady 0) in
  pool_exists Browser w = (Ok true, w) /\
  exists w',
    ObjectPool Browser negative_forced_args w
    = (Raise (Exception "max_members should not be negative number."), w') /\
    pool_exists Browser w' = (Ok false, w') /\
    (forall name, name <> klass_name Browser ->
       registry w' !! name = registry w !! name) /\
    calls w' = calls w /\
    stdout w' = stdout w.
Proof.
  intros w. split; [reflexivity |].
  apply (negative_max_members_rejected Browser negative_forced_args w).
  - vm_compute. reflexivity.
  - left. reflexivity.
Defined.

Lemma cleanups_news q : cleanups (news q) = [].
Proof. induction q as [|x q IH]; [done | exact IH]. Qed.

(** X2: a forced call does not clean up the pool it replaces: the cleanup
    hook is not called, the old pool stays in the store with its queue as it
    was, and the entries of the other names stay. *)
Theorem forced_recreation_skips_cleanup k a pid p w :
  wf w ->
  registry w !! klass_name k = Some pid ->
  pools w !! pid = Some p ->
  force a = true ->
  0 <= max_members a ->
  exists pid' w',
    ObjectPool k a w = (Ok pid', w') /\
    pools w' !! pid = Some p /\
    cleanups (calls w') = cleanups (calls w) /\
    (forall name, name <> klass_name k ->
       registry w' !! name = registry w !! name).
Proof.
  intros [Wp Wr] Hr Hp Hf Hm.
  destruct (ObjectPool_constructs k a w Hm)
    as (q & w' & E & Hps & R & _ & _ & _ & Hc); [by left |].
  exists (next_pid w), w'. split; [exact E |].
  pose proof (Wp _ _ Hp) as Hlt.
  split; [| split].
  - rewrite Hps, lookup_insert_ne by lia. exact Hp.
  - rewrite Hc, cleanups_app, cleanups_news. apply app_nil_r.
  - intros name Hne. rewrite R. by apply lookup_insert_ne.
Qed.

Lemma forced_recreation_skips_cleanup_witness :
  let w := world_with hooked_pool (steady 0) in
  exists pid' w',
    ObjectPool Browser forced_args w = (Ok pid', w') /\
    pools w' !! 0%nat = Some hooked_pool /\
    cleanups (calls w') = cleanups (calls w) /\
    (forall name, name <> klass_name Browser ->
       registry w' !! name = registry w !! name).
Proof.
  intros w.
  apply (forced_recreation_skips_cleanup Browser forced_args 0 hooked_pool w).
  - apply world_with_wf.
  - reflexivity.
  - reflexivity.
  - reflexivity.
  - vm_compute. discriminate.
Defined.

(** ** Replacement and release *)

(** [__check_and_get_member] on a pair that is judged invalid, for whatever
    reason. *)
Lemma check_and_get_invalid pid p m s n w :
  pools w !! pid = Some p ->
  count s = Some n ->
  check_verdict p m s || internal_verdict p s n (clock w) = true ->
  exists w1 w',
    judged_invalid pid m s w = (Ok true, w1) /\
    __check_and_get_member pid m s w
    = (Ok (fabricated p w, default_stats false (clock w1)), w') /\
    later (clock w) (clock w1) /\
    pools w' = pools w /\
    registry w' = registry w /\
    next_pid w' = next_pid w /\
    next_oid w' = S (next_oid w) /\
    calls w1 = calls w ++
      match pool_check_func p with
      | Some f => [EvCheck m s (f m s)]
      | None => []
      end /\
    calls w' = calls w1 ++ cleanup_calls p [(m, s)] ++ [EvNew (fabricated p w)].
Proof.
  intros Hp Hn B.
  destruct (judged_invalid_ok pid p m s n w Hp Hn)
    as (w1 & E & Hps & Ho & Hrg & Hnp & Hcl).
  rewrite B in E.
  pose proof (judged_invalid_later _ _ _ _ _ _ _ Hp E) as L.
  exists w1.
  unfold __check_and_get_member. rewrite (bind_ok _ _ _ _ _ E).
  unfold __cleanup_and_get_member.
  assert (Hp1 : pools w1 !! pid = Some p) by (by rewrite Hps).
  rewrite (bind_ok _ _ _ _ _ (member_cleanup_ok _ _ m s _ Hp1)).
  erewrite bind_ok; [| by apply (create_new_instance_ok pid p)].
  rewrite (bind_ok _ _ _ _ _ (get_default_stats_ok _ _)).
  unfold fabricated at 1 2. simpl. rewrite Ho.
  eexists. split; [exact E |]. split; [reflexivity |]. simpl.
  rewrite Hps, Hrg, Hnp, <- app_assoc.
  repeat split; try done. unfold fabricated. simpl. by rewrite Ho.
Qed.

(** With ['count'] in the stats [__check_and_get_member] returns a pair,
    whose stats have a count again, and leaves the pools as they are. *)
Lemma check_and_get_returns pid p m s n w :
  pools w !! pid = Some p ->
  count s = Some n ->
  exists x w',
    __check_and_get_member pid m s w = (Ok x, w') /\
    pools w' = pools w /\
    registry w' = registry w /\
    is_Some (count (snd x)).
Proof.
  intros Hp Hn.
  destruct (check_verdict p m s || internal_verdict p s n (clock w)) eqn:B.
  - destruct (check_and_get_invalid pid p m s n w Hp Hn B)
      as (w1 & w' & _ & E & _ & Hps & Hrg & _).
    eexists _, w'. split; [exact E |]. by eauto.
  - destruct (judged_invalid_ok pid p m s n w Hp Hn)
      as (w1 & E & Hps & _ & Hrg & _).
    rewrite B in E.
    unfold __check_and_get_member. rewrite (bind_ok _ _ _ _ _ E).
    unfold __update_member_stats. rewrite Hn.
    eexists _, _. split; [reflexivity |]. simpl. by eauto.
Qed.

(** [queue_member] returns whenever the check is off or the stats have a
    count, and then one pair has been put at the tail of the queue. *)
Lemma queue_member_returns pid p m s w :
  pools w !! pid = Some p ->
  post_check p = false \/ is_Some (count s) ->
  exists x w',
    queue_member pid m s w = (Ok tt, w') /\
    pools w' = <[pid := with_queue (pool_queue p ++ [x]) p]> (pools w) /\
    registry w' = registry w /\
    (post_check p = false -> x = (m, s)).
Proof.
  intros Hp Hc. unfold queue_member.
  rewrite (bind_ok _ _ _ _ _ (self_ok _ _ _ Hp)).
  destruct (post_check p) eqn:Hpost.
  - destruct Hc as [? | [n Hn]]; [done |].
    destruct (check_and_get_returns pid p m s n w Hp Hn)
      as (x & w1 & E & Hps & Hrg & _).
    rewrite (bind_ok _ _ _ _ _ E).
    assert (Hp1 : pools w1 !! pid = Some p) by (by rewrite Hps).
    rewrite (queue_put_ok _ _ _ _ Hp1).
    exists x. eexists. split; [reflexivity |]. simpl. by rewrite Hps.
  - erewrite bind_ok; [| reflexivity].
    rewrite (queue_put_ok _ _ _ _ Hp).
    exists (m, s). eexists. split; [reflexivity |]. done.
Qed.

(** [get_member] on an empty queue. *)
Lemma get_member_fabricates pid p w :
  pools w !! pid = Some p ->
  pool_queue p = [] ->
  get_member pid w
  = (Ok (fabricated p w, default_stats true (clock w)),
     set_clock (tick (tick (clock w)))
       (set_calls (calls w ++ [EvNew (fabricated p w)])
          (set_next_oid (S (next_oid w)) w))).
Proof.
  intros Hp Hq. unfold get_member.
  rewrite (bind_ok _ _ _ _ _ (qsize_ok _ _ _ Hp)), Hq. simpl.
  rewrite (bind_ok _ _ _ _ _ (create_new_instance_ok _ _ _ Hp)).
  reflexivity.
Qed.

(** X3: a member that is judged invalid, for any of the three reasons, is
    handed to the cleanup hook with the stats it came with, and only then
    the replacement is made; the replacement comes with a count of 0,
    ['new'] false and the time of the replacement as ['created_at'], and it
    is another object than the member it replaces. *)
Theorem invalid_member_replaced pid p m s n w :
  pools w !! pid = Some p ->
  count s = Some n ->
  (oid m < next_oid w)%nat ->
  check_says_invalid p m s \/ over_reused p n \/ over_age p s (clock w) ->
  exists m' s' w1 w',
    judged_invalid pid m s w = (Ok true, w1) /\
    __check_and_get_member pid m s w = (Ok (m', s'), w') /\
    m' <> m /\
    maker m' = maker_of p /\
    count s' = Some 0 /\
    new s' = false /\
    created_at s' = Some (clock_now (clock w1)) /\
    calls w' = calls w1 ++ cleanup_calls p [(m, s)] ++ [EvNew m'] /\
    pools w' = pools w.
Proof.
  intros Hp Hn Hoid Hinv.
  assert (B : check_verdict p m s || internal_verdict p s n (clock w) = true).
  { rewrite orb_true_iff, check_verdict_true, internal_verdict_true. tauto. }
  destruct (check_and_get_invalid pid p m s n w Hp Hn B)
    as (w1 & w' & E1 & E & _ & Hps & _ & _ & _ & _ & Hc).
  exists (fabricated p w), (default_stats false (clock w1)), w1, w'.
  repeat split; try done.
  intros <-. simpl in Hoid. lia.
Qed.

Lemma invalid_member_replaced_witness :
  let w := world_with hooked_pool (steady (timedelta 31)) in
  exists m' s' w1 w',
    judged_invalid 0 browser0 used_thrice w = (Ok true, w1) /\
    __check_and_get_member 0 browser0 used_thrice w = (Ok (m', s'), w') /\
    m' <> browser0 /\
    maker m' = maker_of hooked_pool /\
    count s' = Some 0 /\
    new s' = false /\
    created_at s' = Some (clock_now (clock w1)) /\
    calls w' = calls w1 ++ cleanup_calls hooked_pool [(browser0, used_thrice)]
               ++ [EvNew m'] /\
    pools w' = pools w.
Proof.
  intros w.
  apply (invalid_member_replaced 0 hooked_pool browser0 used_thrice 3 w).
  - reflexivity.
  - reflexivity.
  - vm_compute. lia.
  - right. right. split; [discriminate | reflexivity].
Defined.

(** X4: [queue_member] applies no bound: whenever the release check is off
    or the stats have a count, it returns and the queue is one pair longer,
    with the pairs that were there in front and in their order, whatever
    [max_members] was; without the check the pair is the one given. *)
Theorem release_appends_one pid p m s w :
  pools w !! pid = Some p ->
  post_check p = false \/ is_Some (count s) ->
  exists x w',
    queue_member pid m s w = (Ok tt, w') /\
    queue_of pid w' = Some (pool_queue p ++ [x]) /\
    get_pool_size pid w' = (Ok (Z.of_nat (length (pool_queue p)) + 1), w') /\
    (post_check p = false -> x = (m, s)).
Proof.
  intros Hp Hc.
  destruct (queue_member_returns pid p m s w Hp Hc) as (x & w' & E & Hps & _ & Hx).
  exists x, w'. split; [exact E |].
  assert (Hp' : pools w' !! pid = Some (with_queue (pool_queue p ++ [x]) p)).
  { rewrite Hps. apply lookup_insert_eq. }
  split; [unfold queue_of; by rewrite Hp' |]. split; [| exact Hx].
  rewrite (qsize_ok _ _ _ Hp'). cbn [pool_queue with_queue].
  rewrite length_app. simpl. do 2 f_equal. lia.
Qed.

Lemma release_appends_one_witness :
  let w := world_with hooked_pool (steady 5) in
  max_pool_object hooked_pool = 2 /\
  exists x w',
    queue_member 0 browser0 used_thrice w = (Ok tt, w') /\
    queue_of 0 w' = Some (pool_queue hooked_pool ++ [x]) /\
    get_pool_size 0 w'
    = (Ok (Z.of_nat (length (pool_queue hooked_pool)) + 1), w') /\
    (post_check hooked_pool = false -> x = (browser0, used_thrice)).
Proof.
  intros w. split; [reflexivity |].
  apply (release_appends_one 0 hooked_pool browser0 used_thrice w).
  - reflexivity.
  - right. by eexists.
Defined.

(** X5: with [lazy] on, construction makes no member and the pool is empty
    whatever [max_members] says; the first [with pool.get()] block gets a
    member made on the spot, by the create hook given as argument if there
    is one, else by the [create] of the class if it has one, else by the
    class itself, and leaves it in the pool, which then has one member. *)
Theorem lazy_pool_fills_on_demand k a w :
  0 <= max_members a ->
  lazy_ a = true ->
  force a = true \/ registry w !! klass_name k = None ->
  exists pid w',
    ObjectPool k a w = (Ok pid, w') /\
    get_pool_size pid w' = (Ok 0, w') /\
    calls w' = calls w /\
    exists m s w'',
      cycle pid w' = (Ok (Some (m, s)), w'') /\
      maker m = match create_func a, klass_create k with
                | Some h, _ => ByCreateFunc h
                | None, Some h => ByCreateFunc h
                | None, None => ByKlass (klass_name k) (klass_id k)
                end /\
      count s = Some 0 /\
      new s = true /\
      get_pool_size pid w'' = (Ok 1, w'').
Proof.
  intros Hm Hl Hfree.
  destruct (ObjectPool_constructs k a w Hm Hfree)
    as (q & w' & E & Hps & _ & _ & Hlen & _ & Hc).
  unfold initial_fill in Hlen. rewrite Hl in Hlen.
  destruct q; [| done]. simpl in Hc. rewrite app_nil_r in Hc.
  set (p0 := pool_of k a []) in *.
  assert (Hp : pools w' !! next_pid w = Some p0).
  { rewrite Hps. apply lookup_insert_eq. }
  exists (next_pid w), w'. split; [exact E |].
  split; [by rewrite (qsize_ok _ _ _ Hp) |]. split; [exact Hc |].
  pose proof (get_member_fabricates (next_pid w) p0 w' Hp eq_refl) as G.
  match type of G with _ = (_, ?w0) => set (w1 := w0) in * end.
  assert (Hp1 : pools w1 !! next_pid w = Some p0) by exact Hp.
  destruct (queue_member_returns (next_pid w) p0 (fabricated p0 w')
              (default_stats true (clock w')) w1 Hp1)
    as (x & w2 & E2 & Hps2 & _); [right; by eexists |].
  exists (fabricated p0 w'), (default_stats true (clock w')), w2.
  split.
  - unfold cycle.
    rewrite (py_with_get _ _ w' _ _ w1 (Ok (fabricated p0 w',
                                             default_stats true (clock w')))
               w1 G eq_refl).
    by rewrite E2.
  - split; [| split; [done | split; [done |]]].
    + simpl. unfold maker_of, p0. simpl.
      by destruct (create_func a), (klass_create k).
    + erewrite qsize_ok by (rewrite Hps2; apply lookup_insert_eq).
      reflexivity.
Qed.

Lemma lazy_pool_fills_on_demand_witness :
  let w := start (steady 0) in
  exists pid w',
    ObjectPool Hooked lazy_args w = (Ok pid, w') /\
    get_pool_size pid w' = (Ok 0, w') /\
    calls w' = calls w /\
    exists m s w'',
      cycle pid w' = (Ok (Some (m, s)), w'') /\
      maker m = match create_func lazy_args, klass_create Hooked with
                | Some h, _ => ByCreateFunc h
                | None, Some h => ByCreateFunc h
                | None, None => ByKlass (klass_name Hooked) (klass_id Hooked)
                end /\
      count s = Some 0 /\
      new s = true /\
      get_pool_size pid w'' = (Ok 1, w'').
Proof.
  intros w. apply (lazy_pool_fills_on_demand Hooked lazy_args w).
  - vm_compute. discriminate.
  - reflexivity.
  - right. reflexivity.
Defined.

(** ** Pools without checks *)

Lemma set_pools_id pid p w :
  pools w !! pid = Some p ->
  set_pools (<[pid := with_queue (pool_queue p) p]> (pools w)) w = w.
Proof.
  intros Hp. replace (with_queue (pool_queue p) p) with p by (by destruct p).
  rewrite insert_id by done. by destruct w.
Qed.

(** With both checks off a cycle takes the pair at the head of the queue
    and puts it back at the tail; nothing else changes. *)
Lemma unchecked_cycle pid p x q w :
  pools w !! pid = Some p ->
  pool_queue p = x :: q ->
  pre_check p = false ->
  post_check p = false ->
  cycle pid w
  = (Ok (Some x), set_pools (<[pid := with_queue (q ++ [x]) p]> (pools w)) w).
Proof.
  intros Hp Hq Hpre Hpost.
  pose proof (get_member_queued pid p x q w Hp Hq Hpre) as G.
  destruct x as [m s].
  unfold cycle. rewrite (py_with_get pid _ w m s _ (Ok (m, s)) _ G eq_refl).
  unfold queue_member.
  erewrite bind_ok; [| by apply self_ok, lookup_insert_eq].
  cbn [post_check with_queue]. rewrite Hpost.
  erewrite bind_ok; [| reflexivity].
  erewrite queue_put_ok by apply lookup_insert_eq.
  simpl. by rewrite insert_insert_eq.
Qed.

Lemma unchecked_cycles_rotate q1 : forall pid p q2 w,
  pools w !! pid = Some p ->
  pool_queue p = q1 ++ q2 ->
  pre_check p = false ->
  post_check p = false ->
  cycles (length q1) pid w
  = (Ok tt, set_pools (<[pid := with_queue (q2 ++ q1) p]> (pools w)) w).
Proof.
  induction q1 as [|x q1 IH]; intros pid p q2 w Hp Hq Hpre Hpost.
  - simpl in *. rewrite app_nil_r, <- Hq. by rewrite (set_pools_id _ _ _ Hp).
  - simpl. unfold bind.
    rewrite (unchecked_cycle pid p x (q1 ++ q2) w Hp Hq Hpre Hpost).
    rewrite (IH pid (with_queue ((q1 ++ q2) ++ [x]) p) (q2 ++ [x]));
      [| apply lookup_insert_eq | by rewrite <- app_assoc | done | done].
    simpl. rewrite insert_insert_eq, <- app_assoc. reflexivity.
Qed.

(** X6: with [pre_check] and [post_check] both off the pool never looks at
    its members: as many [with pool.get()] blocks as the queue has members
    in front, [q1], move these to the tail in their order, stats untouched,
    and change nothing else (no reading of the clock, no call of a hook);
    after as many blocks as the queue has members the world is what it
    was. *)
Theorem unchecked_pool_only_rotates pid p q1 q2 w :
  pools w !! pid = Some p ->
  pool_queue p = q1 ++ q2 ->
  pre_check p = false ->
  post_check p = false ->
  cycles (length q1) pid w
  = (Ok tt, set_pools (<[pid := with_queue (q2 ++ q1) p]> (pools w)) w) /\
  cycles (length (pool_queue p)) pid w = (Ok tt, w).
Proof.
  intros Hp Hq Hpre Hpost. split.
  - by apply unchecked_cycles_rotate.
  - rewrite (unchecked_cycles_rotate (pool_queue p) pid p [] w Hp);
      [| by rewrite app_nil_r | done | done].
    simpl. by rewrite (set_pools_id _ _ _ Hp).
Qed.

Lemma unchecked_pool_only_rotates_witness :
  let w := world_with unchecked_pool (steady 5) in
  cycles (length [(browser0, used_thrice)]) 0 w
  = (Ok tt,
     set_pools
       (<[0%nat := with_queue ([(browser1, default_stats true (steady 1))]
                               ++ [(browser0, used_thrice)]) unchecked_pool]>
          (pools w)) w) /\
  cycles (length (pool_queue unchecked_pool)) 0 w = (Ok tt, w).
Proof.
  intros w.
  apply (unchecked_pool_only_rotates 0 unchecked_pool
           [(browser0, used_thrice)]
           [(browser1, default_stats true (steady 1))] w); reflexivity.
Defined.

(** ** Stats without a count *)

(** X7: stats without ['count'] make [queue_member] with [post_check] raise
    before the pair reaches the queue.  With a limit of reuses the
    comparison of the limit with [None] is a [TypeError]; without one, a
    pair that is otherwise valid fails in [__update_member_stats] with a
    [KeyError].  Either way the member is neither queued nor cleaned up,
    and no replacement is made. *)
Theorem missing_count_raises pid p m s w :
  pools w !! pid = Some p ->
  post_check p = true ->
  count s = None ->
  (max_reusable_count p <> 0 ->
   exists w',
     queue_member pid m s w = (Raise TypeError, w') /\
     pools w' = pools w /\
     cleanups (calls w') = cleanups (calls w) /\
     next_oid w' = next_oid w) /\
  (max_reusable_count p = 0 ->
   check_verdict p m s = false ->
   ~ over_age p s (clock w) ->
   exists w',
     queue_member pid m s w = (Raise KeyError, w') /\
     pools w' = pools w /\
     cleanups (calls w') = cleanups (calls w) /\
     next_oid w' = next_oid w).
Proof.
  intros Hp Hpost Hn. split.
  - intros HR. apply Z.eqb_neq in HR.
    unfold queue_member, __check_and_get_member, judged_invalid,
      _internal_invalid_check, _get_expiry_time, int_lt_count.
    rewrite Hn.
    unfold bind, self, datetime_now, print, ret, raise, record_call.
    destruct w as [c no np ps rg cl out]; simpl in *.
    repeat first [rewrite Hp | rewrite Hpost | progress simpl].
    destruct (pool_check_func p) as [f|];
      repeat first [rewrite Hp | progress simpl];
      destruct (created_at s) as [t0|];
      repeat first [rewrite Hp | rewrite HR | progress simpl];
      eexists; (split; [reflexivity |]); simpl;
      rewrite ?cleanups_app, ?app_nil_r; done.
  - intros HR Hc Ha.
    assert (Hage : negb (expire_in_secs p =? 0) &&
                   match created_at s with
                   | Some t0 => t0 + timedelta (expire_in_secs p) <? clock_now (clock w)
                   | None => clock_now (clock w) <? next_reading (clock w)
                   end = false).
    { apply not_true_is_false. intros H. apply Ha.
      apply andb_true_iff in H as [H1 H2].
      apply negb_true_iff, Z.eqb_neq in H1. split; [exact H1 |].
      destruct (created_at s); apply Z.ltb_lt in H2; lia. }
    unfold check_verdict in Hc.
    unfold queue_member, __check_and_get_member, judged_invalid,
      _internal_invalid_check, _get_expiry_time, int_lt_count,
      __update_member_stats.
    rewrite Hn.
    unfold bind, self, datetime_now, print, ret, raise, record_call.
    unfold next_reading, tick in Hage.
    destruct w as [c no np ps rg cl out]; simpl in *.
    repeat first [rewrite Hp | rewrite Hpost | progress simpl].
    destruct (pool_check_func p) as [f|];
      repeat first [rewrite Hp | rewrite Hc | progress simpl];
      destruct (created_at s) as [t0|];
      repeat first [rewrite Hp | rewrite HR | progress simpl];
      destruct (expire_in_secs p =? 0); simpl in *;
      repeat first [rewrite Hage | progress simpl];
      eexists; (split; [reflexivity |]); simpl;
      rewrite ?cleanups_app, ?app_nil_r; done.
Qed.

Lemma missing_count_raises_witness :
  let w := world_with default_pool (steady 5) in
  (max_reusable_count default_pool <> 0 ->
   exists w',
     queue_member 0 browser0 stats_without_count w = (Raise TypeError, w') /\
     pools w' = pools w /\
     cleanups (calls w') = cleanups (calls w) /\
     next_oid w' = next_oid w) /\
  (max_reusable_count default_pool = 0 ->
   check_verdict default_pool browser0 stats_without_count = false ->
   ~ over_age default_pool stats_without_count (clock w) ->
   exists w',
     queue_member 0 browser0 stats_without_count w = (Raise KeyError, w') /\
     pools w' = pools w /\
     cleanups (calls w') = cleanups (calls w) /\
     next_oid w' = next_oid w).
Proof.
  intros w.
  apply (missing_count_raises 0 default_pool browser0 stats_without_count w);
    reflexivity.
Defined.

(** ** Destroying twice, and releasing afterwards *)

Lemma world_eq (w1 w2 : World) :
  clock w1 = clock w2 -> next_oid w1 = next_oid w2 ->
  next_pid w1 = next_pid w2 -> pools w1 = pools w2 ->
  registry w1 = registry w2 -> calls w1 = calls w2 ->
  stdout w1 = stdout w2 -> w1 = w2.
Proof. destruct w1, w2. simpl. by intros -> -> -> -> -> -> ->. Qed.

(** X8: [destroy] can be repeated: the second call finds the queue empty,
    calls no hook, finds the name gone from the registry and leaves the
    world as the first call left it. *)
Theorem destroy_twice pid p w :
  pools w !! pid = Some p ->
  exists w',
    destroy pid w = (Ok tt, w') /\
    destroy pid w' = (Ok tt, w').
Proof.
  intros Hp.
  destruct (destroy_ok pid p w Hp)
    as (w1 & E1 & Hps1 & Hc1 & Hr1 & Hn1 & Ho1 & Hk1 & Hs1).
  assert (Hp1 : pools w1 !! pid = Some (with_queue [] p)).
  { rewrite Hps1. apply lookup_insert_eq. }
  destruct (destroy_ok pid _ w1 Hp1)
    as (w2 & E2 & Hps2 & Hc2 & Hr2 & Hn2 & Ho2 & Hk2 & Hs2).
  exists w1. split; [exact E1 |]. rewrite E2. f_equal.
  apply world_eq; try done.
  - rewrite Hps2, Hps1. apply insert_insert_eq.
  - rewrite Hr2, Hr1. apply delete_delete_eq.
  - rewrite Hc2. unfold cleanup_calls. simpl.
    destruct (pool_cleanup_func p); apply app_nil_r.
Qed.

Lemma destroy_twice_witness :
  let w := world_with hooked_pool (steady 5) in
  exists w', destroy 0 w = (Ok tt, w') /\ destroy 0 w' = (Ok tt, w').
Proof.
  intros w. apply (destroy_twice 0 hooked_pool w). reflexivity.
Defined.

(** X9: a member that was out when its pool was destroyed can still be
    released: [queue_member] puts a pair into the queue of the destroyed
    pool, which then holds that one pair, and the pool stays out of the
    registry. *)
Theorem release_after_destroy pid p m s w :
  pools w !! pid = Some p ->
  post_check p = false \/ is_Some (count s) ->
  exists w1 x w2,
    destroy pid w = (Ok tt, w1) /\
    queue_member pid m s w1 = (Ok tt, w2) /\
    queue_of pid w2 = Some [x] /\
    (post_check p = false -> x = (m, s)) /\
    pool_exists (klass p) w2 = (Ok false, w2).
Proof.
  intros Hp Hc.
  destruct (destroy_ok pid p w Hp) as (w1 & E1 & Hps1 & _ & Hr1 & _).
  assert (Hp1 : pools w1 !! pid = Some (with_queue [] p)).
  { rewrite Hps1. apply lookup_insert_eq. }
  destruct (queue_member_returns pid _ m s w1 Hp1 Hc)
    as (x & w2 & E2 & Hps2 & Hr2 & Hx).
  exists w1, x, w2. split; [exact E1 |]. split; [exact E2 |].
  split; [| split; [exact Hx |]].
  - unfold queue_of. by rewrite Hps2, lookup_insert_eq.
  - unfold pool_exists, _pool_exists. by rewrite Hr2, Hr1, lookup_delete_eq.
Qed.

Lemma release_after_destroy_witness :
  let w := world_with hooked_pool (steady 5) in
  exists w1 x w2,
    destroy 0 w = (Ok tt, w1) /\
    queue_member 0 browser0 used_thrice w1 = (Ok tt, w2) /\
    queue_of 0 w2 = Some [x] /\
    (post_check hooked_pool = false -> x = (browser0, used_thrice)) /\
    pool_exists (klass hooked_pool) w2 = (Ok false, w2).
Proof.
  intros w.
  apply (release_after_destroy 0 hooked_pool browser0 used_thrice w).
  - reflexivity.
  - right. by eexists.
Defined.

(** ** Limits that are off, and checks that are both on *)

Lemma cycles_unlimited pid p m k : forall s n w,
  pools w !! pid = Some (with_queue [(m, s)] p) ->
  pre_check p = false ->
  post_check p = true ->
  count s = Some n ->
  (forall s', check_verdict p m s' = false) ->
  max_reusable_count p = 0 ->
  expire_in_secs p = 0 ->
  exists s' w',
    cycles k pid w = (Ok tt, w') /\
    pools w' !! pid = Some (with_queue [(m, s')] p) /\
    count s' = Some (n + Z.of_nat k) /\
    created_at s' = created_at s /\
    next_oid w' = next_oid w /\
    cleanups (calls w') = cleanups (calls w).
Proof.
  induction k as [|k IH]; intros s n w Hp Hpre Hpost Hn Hc HR HE.
  - exists s, w. simpl. rewrite Z.add_0_r. done.
  - destruct (cycle_valid pid p m s n w Hp Hpre Hpost Hn (Hc s))
      as (s1 & w1 & E1 & Hp1 & Hn1 & Hcr1 & Ho1 & Hcl1 & _).
    { intros [H _]. done. }
    { intros [H _]. done. }
    destruct (IH s1 (n + 1) w1 Hp1 Hpre Hpost Hn1 Hc HR HE)
      as (s2 & w2 & E2 & Hp2 & Hn2 & Hcr2 & Ho2 & Hcl2).
    exists s2, w2. split.
    + simpl. by rewrite (bind_ok _ _ _ _ _ E1).
    + rewrite Hp2, Hn2, Hcr2, Ho2, Hcl2, Hcr1, Ho1, Hcl1.
      repeat split; try done. f_equal. lia.
Qed.

(** X10: [max_reusable = 0] and [expires = 0] switch the built-in checks
    off.  With a check hook that does not reject, any number of
    [with pool.get()] blocks on a pool of one member keeps that member,
    whatever the clock does in between: its count goes up by one each time,
    its ['created_at'] stays, no member is made and no cleanup is called. *)
Theorem zero_limits_never_replace pid p m s n k w :
  pools w !! pid = Some p ->
  pool_queue p = [(m, s)] ->
  count s = Some n ->
  max_reusable_count p = 0 ->
  expire_in_secs p = 0 ->
  (forall s', check_verdict p m s' = false) ->
  pre_check p = false ->
  post_check p = true ->
  exists s' w',
    cycles k pid w = (Ok tt, w') /\
    queue_of pid w' = Some [(m, s')] /\
    count s' = Some (n + Z.of_nat k) /\
    created_at s' = created_at s /\
    next_oid w' = next_oid w /\
    cleanups (calls w') = cleanups (calls w).
Proof.
  intros Hp Hq Hn HR HE Hc Hpre Hpost.
  assert (Hp' : pools w !! pid = Some (with_queue [(m, s)] p)).
  { rewrite Hp. f_equal. rewrite <- Hq. by destruct p. }
  destruct (cycles_unlimited pid p m k s n w Hp' Hpre Hpost Hn Hc HR HE)
    as (s' & w' & E & Hp1 & H).
  exists s', w'. split; [exact E |].
  split; [unfold queue_of; by rewrite Hp1 | exact H].
Qed.

(** X11: with [pre_check] and [post_check] both on, one
    [with pool.get()] block on a valid member runs the policy twice: the
    stats the client sees have the count raised by one, and the stats put
    back have it raised by two. *)
Theorem both_checks_count_twice pid p m s n w :
  pools w !! pid = Some p ->
  pool_queue p = [(m, s)] ->
  pre_check p = true ->
  post_check p = true ->
  count s = Some n ->
  (forall s', check_verdict p m s' = false) ->
  max_reusable_count p = 0 \/ n + 1 <= max_reusable_count p ->
  ageless p s (clock w) ->
  exists s1 s2 w',
    cycle pid w = (Ok (Some (m, s1)), w') /\
    count s1 = Some (n + 1) /\
    queue_of pid w' = Some [(m, s2)] /\
    count s2 = Some (n + 2) /\
    cleanups (calls w') = cleanups (calls w).
Proof.
  intros Hp Hq Hpre Hpost Hn Hc HR Ha.
  pose proof (get_member_pre_check pid p m s [] w Hp Hq Hpre) as G.
  set (w0 := set_pools (<[pid := with_queue [] p]> (pools w)) w) in *.
  assert (Hp0 : pools w0 !! pid = Some (with_queue [] p))
    by apply lookup_insert_eq.
  destruct (check_and_get_valid pid (with_queue [] p) m s n w0 Hp0 Hn (Hc s))
    as (s1 & w1 & E1 & Hn1 & Hcr1 & _ & Hps1 & _ & _ & _ & Hcl1 & L1).
  { intros [H1 H2]. simpl in *. lia. }
  { by apply ageless_not_over_age. }
  rewrite E1 in G.
  assert (Hp1 : pools w1 !! pid = Some (with_queue [] p)) by (by rewrite Hps1).
  destruct (queue_member_valid pid (with_queue [] p) m s1 (n + 1) w1
              Hp1 Hpost Hn1 (Hc s1))
    as (s2 & w2 & E2 & Hps2 & Hn2 & _ & _ & Hcl2 & _).
  { intros [H1 H2]. simpl in *. lia. }
  { apply ageless_not_over_age.
    by apply (ageless_later (with_queue [] p) s s1 (clock w)). }
  exists s1, s2, w2. split.
  - unfold cycle.
    rewrite (py_with_get pid _ w m s1 w1 (Ok (m, s1)) w1 G eq_refl).
    by rewrite E2.
  - split; [exact Hn1 |]. split; [| split].
    + unfold queue_of. by rewrite Hps2, lookup_insert_eq.
    + rewrite Hn2. f_equal. lia.
    + by rewrite Hcl2, Hcl1.
Qed.

(** X12: with [pre_check] on, a borrow that finds the oldest member past
    its expiry time does not hand it out: the cleanup hook gets it, the
    borrower gets a member made on the spot, with a count of 0 and ['new']
    false, and the old member is not queued again. *)
Theorem expired_member_replaced_at_borrow pid p m s n t0 q w :
  pools w !! pid = Some p ->
  pool_queue p = (m, s) :: q ->
  pre_check p = true ->
  count s = Some n ->
  created_at s = Some t0 ->
  expire_in_secs p <> 0 ->
  clock_now (clock w) > t0 + timedelta (expire_in_secs p) ->
  (oid m < next_oid w)%nat ->
  exists m' s' w',
    get_member pid w = (Ok (m', s'), w') /\
    m' <> m /\
    count s' = Some 0 /\
    new s' = false /\
    cleanups (calls w') = cleanups (calls w) ++ cleanup_calls p [(m, s)] /\
    queue_of pid w' = Some q.
Proof.
  intros Hp Hq Hpre Hn Hcr HE Hold Hoid.
  rewrite (get_member_pre_check pid p m s q w Hp Hq Hpre).
  set (w0 := set_pools (<[pid := with_queue q p]> (pools w)) w).
  assert (Hp0 : pools w0 !! pid = Some (with_queue q p))
    by apply lookup_insert_eq.
  assert (B : check_verdict (with_queue q p) m s
              || internal_verdict (with_queue q p) s n (clock w0) = true).
  { rewrite orb_true_iff, internal_verdict_true. right. right.
    split; [exact HE |]. by rewrite Hcr. }
  destruct (check_and_get_invalid pid _ m s n w0 Hp0 Hn B)
    as (w1 & w' & _ & E & _ & Hps & _ & _ & _ & Hc1 & Hc).
  eexists _, _, w'. split; [exact E |].
  split; [intros <-; simpl in Hoid; lia |].
  split; [done |]. split; [done |]. split.
  - rewrite Hc, Hc1, !cleanups_app, cleanups_check_event,
      cleanups_cleanup_calls. simpl. by rewrite !app_nil_r.
  - unfold queue_of. by rewrite Hps, Hp0.
Qed.

Lemma zero_limits_never_replace_witness :
  let w := world_with zero_limit_pool leaping in
  exists s' w',
    cycles 5 0 w = (Ok tt, w') /\
    queue_of 0 w' = Some [(browser0, s')] /\
    count s' = Some (3 + Z.of_nat 5) /\
    created_at s' = created_at used_thrice /\
    next_oid w' = next_oid w /\
    cleanups (calls w') = cleanups (calls w).
Proof.
  intros w.
  apply (zero_limits_never_replace 0 zero_limit_pool browser0 used_thrice 3 5 w);
    reflexivity.
Defined.

Lemma both_checks_count_twice_witness :
  let w := world_with both_checks_pool (steady 5) in
  exists s1 s2 w',
    cycle 0 w = (Ok (Some (browser0, s1)), w') /\
    count s1 = Some (3 + 1) /\
    queue_of 0 w' = Some [(browser0, s2)] /\
    count s2 = Some (3 + 2) /\
    cleanups (calls w') = cleanups (calls w).
Proof.
  intros w.
  apply (both_checks_count_twice 0 both_checks_pool browser0 used_thrice 3 w).
  - reflexivity.
  - reflexivity.
  - reflexivity.
  - reflexivity.
  - reflexivity.
  - reflexivity.
  - right. vm_compute. discriminate.
  - right. exists 0. split; [reflexivity |]. vm_compute.
    split; [discriminate | exact I].
Defined.

Lemma expired_member_replaced_at_borrow_witness :
  let w := world_with both_checks_pool (steady (timedelta 31)) in
  exists m' s' w',
    get_member 0 w = (Ok (m', s'), w') /\
    m' <> browser0 /\
    count s' = Some 0 /\
    new s' = false /\
    cleanups (calls w')
    = cleanups (calls w)
      ++ cleanup_calls both_checks_pool [(browser0, used_thrice)] /\
    queue_of 0 w' = Some [].
Proof.
  intros w.
  apply (expired_member_replaced_at_borrow 0 both_checks_pool browser0
           used_thrice 3 0 [] w).
  - reflexivity.
  - reflexivity.
  - reflexivity.
  - reflexivity.
  - reflexivity.
  - discriminate.
  - reflexivity.
  - vm_compute. lia.
Defined.

(** ** Pools do not interfere *)

Lemma same_config_refl p : same_config p p.
Proof. reflexivity. Qed.

Lemma same_config_trans p1 p2 p3 :
  same_config p1 p2 -> same_config p2 p3 -> same_config p1 p3.
Proof. unfold same_config. congruence. Qed.

Lemma same_config_klass p p' : same_config p p' -> klass p' = klass p.
Proof. intros H. exact (f_equal klass H). Qed.

Lemma confined_unchanged pid {A} (c : M A) :
  (forall w, snd (c w) = w) -> confined pid c.
Proof.
  intros H w. rewrite H. repeat split; try done.
  intros p Hp. exists p. split; [done | apply same_config_refl].
Qed.

Lemma confined_same_pools pid {A} (c : M A) :
  (forall w, pools (snd (c w)) = pools w /\ registry (snd (c w)) = registry w) ->
  confined pid c.
Proof.
  intros H w. destruct (H w) as [Hp Hr]. rewrite Hp, Hr.
  repeat split; try done.
  intros p Hp'. exists p. split; [done | apply same_config_refl].
Qed.

Lemma confined_bind pid {A B} (c : M A) (k : A -> M B) :
  confined pid c -> (forall a, confined pid (k a)) -> confined pid (bind c k).
Proof.
  intros Hc Hk w. specialize (Hc w). unfold bind.
  destruct (c w) as [[a | e] w1]; simpl in *; [| exact Hc].
  destruct Hc as (R1 & O1 & S1 & N1).
  destruct (Hk a w1) as (R2 & O2 & S2 & N2).
  split; [congruence |]. split; [| split].
  - intros j Hj. rewrite O2, O1; done.
  - intros p Hp. destruct (S1 p Hp) as (p1 & Hp1 & C1).
    destruct (S2 p1 Hp1) as (p2 & Hp2 & C2).
    exists p2. split; [done |]. by apply (same_config_trans p p1).
  - intros Hn. auto.
Qed.

Lemma confined_ret pid {A} (a : A) : confined pid (ret a).
Proof. by apply confined_unchanged. Qed.

Lemma confined_raise pid {A} e : confined pid (@raise A e).
Proof. by apply confined_unchanged. Qed.

Lemma confined_self pid j : confined pid (self j).
Proof.
  apply confined_unchanged. intros w. unfold self.
  by destruct (pools w !! j).
Qed.

Lemma confined_datetime_now pid : confined pid datetime_now.
Proof. by apply confined_same_pools. Qed.

Lemma confined_print pid d : confined pid (print d).
Proof. by apply confined_same_pools. Qed.

Lemma confined_record_call pid e : confined pid (record_call e).
Proof. by apply confined_same_pools. Qed.

Lemma confined_new_object pid mk : confined pid (new_object mk).
Proof. by apply confined_same_pools. Qed.

Lemma confined_set_self_queue pid q : confined pid (set_self_queue pid q).
Proof.
  intros w. unfold set_self_queue.
  destruct (pools w !! pid) as [p|] eqn:Hp; simpl.
  - split; [done |]. split; [| split].
    + intros j Hj. by apply lookup_insert_ne.
    + intros p0 [= <-]. exists (with_queue q p).
      split; [apply lookup_insert_eq | reflexivity].
    + done.
  - by repeat split.
Qed.

Create HintDb confined.

#[local] Hint Resolve confined_ret confined_raise confined_self
  confined_datetime_now confined_print confined_record_call
  confined_new_object confined_set_self_queue : confined.

Ltac confine :=
  repeat first
    [ solve [auto with confined]
    | apply confined_bind; [| intros ?]
    | match goal with
      | |- confined _ (match ?x with _ => _ end) => destruct x
      | |- confined _ (if ?b then _ else _) => destruct b
      end ].

Lemma confined_check_and_get_member pid m s :
  confined pid (__check_and_get_member pid m s).
Proof.
  unfold __check_and_get_member, judged_invalid, _internal_invalid_check,
    _get_expiry_time, int_lt_count, __cleanup_and_get_member,
    __member_cleanup, __create_new_instance, _get_default_stats,
    __update_member_stats.
  confine.
Qed.

#[local] Hint Resolve confined_check_and_get_member : confined.

Lemma confined_get_member pid : confined pid (get_member pid).
Proof.
  unfold get_member, get_pool_size, qsize, queue_get, __create_new_instance,
    _get_default_stats.
  confine.
Qed.

Lemma confined_queue_member pid m s : confined pid (queue_member pid m s).
Proof. unfold queue_member, queue_put. confine. Qed.

#[local] Hint Resolve confined_get_member confined_queue_member : confined.

(** A block that does nothing is a borrow followed by a release. *)
Lemma cycle_borrow_release pid w :
  cycle pid w
  = (do x <- get_member pid;
     queue_member pid (fst x) (snd x) ;; ret (Some x)) w.
Proof.
  unfold bind at 1.
  destruct (get_member pid w) as [[[m s] | e] w1] eqn:G.
  - unfold cycle. rewrite (py_with_get pid _ w m s w1 (Ok (m, s)) w1 G eq_refl).
    unfold bind. simpl. by destruct (queue_member pid m s w1) as [[[] | e] w2].
  - unfold cycle, py_with, __enter__, get, Executor__init__. cbn [ex_pool].
    unfold bind. by rewrite G.
Qed.

Lemma confined_cycle pid : confined pid (cycle pid).
Proof.
  intros w. rewrite cycle_borrow_release. revert w.
  change (confined pid (do x <- get_member pid;
                        queue_member pid (fst x) (snd x) ;; ret (Some x))).
  confine.
Qed.

Lemma confined_destroy_loop fuel pid : confined pid (destroy_loop fuel pid).
Proof.
  induction fuel as [|fuel IH]; simpl;
    unfold get_pool_size, qsize, queue_get, __member_cleanup; confine.
Qed.

(** What [destroy] does to the store and the registry, whether the pool is
    there or not. *)
Lemma destroy_frame pid w :
  (forall name i, registry (snd (destroy pid w)) !! name = Some i ->
     registry w !! name = Some i) /\
  (forall j, j <> pid -> pools (snd (destroy pid w)) !! j = pools w !! j) /\
  (forall p, pools w !! pid = Some p ->
     exists p', pools (snd (destroy pid w)) !! pid = Some p' /\
                same_config p p').
Proof.
  destruct (pools w !! pid) as [p|] eqn:Hp.
  - destruct (destroy_ok pid p w Hp) as (w' & E & Hps & _ & Hr & _).
    rewrite E. simpl. rewrite Hps, Hr. split; [| split].
    + intros name i H. by apply lookup_delete_Some in H as [_ H].
    + intros j Hj. by apply lookup_insert_ne.
    + intros p0 [= <-]. exists (with_queue [] p).
      split; [apply lookup_insert_eq | reflexivity].
  - unfold destroy, bind, self. rewrite Hp. simpl. rewrite Hp.
    repeat split; try done.
Qed.

(** X13: [get_member], [queue_member] and a [with pool.get()] block on one
    pool, returning or raising, leave the registry and every other pool as
    they were and keep the attributes of the pool itself, apart from its
    queue; [destroy] leaves every other pool as it was and keeps the
    attributes too. *)
Theorem pool_operations_confined pid m s :
  confined pid (get_member pid) /\
  confined pid (queue_member pid m s) /\
  confined pid (cycle pid) /\
  (forall w j, j <> pid -> pools (snd (destroy pid w)) !! j = pools w !! j) /\
  (forall w p, pools w !! pid = Some p ->
     exists p', pools (snd (destroy pid w)) !! pid = Some p' /\
                same_config p p').
Proof.
  split; [apply confined_get_member |].
  split; [apply confined_queue_member |].
  split; [apply confined_cycle |].
  split; intros w; apply (destroy_frame pid w).
Qed.

(** ** The registry leads to pools of the right name *)

Lemma consistent_start c : consistent (start c).
Proof.
  split; [apply wf_start |].
  intros name pid H. unfold start in H. simpl in H.
  by apply lookup_empty_Some in H.
Qed.

Lemma confined_registry_sound pid {A} (c : M A) w :
  confined pid c -> registry_sound w -> registry_sound (snd (c w)).
Proof.
  intros C S name i H. destruct (C w) as (R & O & K & _).
  rewrite R in H. destruct (S name i H) as (p & Hp & Hn).
  destruct (decide (i = pid)) as [-> | Hne].
  - destruct (K p Hp) as (p' & Hp' & Hc). exists p'. split; [exact Hp' |].
    by rewrite (same_config_klass p p' Hc).
  - exists p. by rewrite O.
Qed.

(** The world a constructing call with a negative [max_members] leaves. *)
Lemma ObjectPool_negative_world k a w :
  max_members a < 0 ->
  force a = true \/ registry w !! klass_name k = None ->
  exists e w',
    ObjectPool k a w = (Raise e, w') /\
    registry w' = delete (klass_name k) (registry w) /\
    pools w' = <[next_pid w := pool_of k a []]> (pools w).
Proof.
  intros Hm Hfree. unfold ObjectPool, __call__.
  assert (H0 : exists w0,
             (if force a then _remove_pool k else ret tt) w = (Ok tt, w0) /\
             registry w0 = delete (klass_name k) (registry w) /\
             pools w0 = pools w /\ next_pid w0 = next_pid w).
  { destruct (force a).
    - eexists. split; [reflexivity |]. done.
    - destruct Hfree as [? | Hn]; [done |]. exists w.
      split; [reflexivity |]. by rewrite delete_id. }
  destruct H0 as (w0 & E0 & Hr0 & Hp0 & Hn0).
  rewrite (bind_ok _ _ _ _ _ E0).
  assert (Hfree0 : registry w0 !! klass_name k = None)
    by (rewrite Hr0; apply lookup_delete_eq).
  unfold bind at 1, _pool_exists. rewrite Hfree0.
  unfold type_call, __init__.
  unfold bind at 1. unfold bind at 1. unfold bind at 1.
  unfold setattrs at 1. unfold bind at 1.
  erewrite self_ok by apply lookup_insert_eq.
  cbn [max_pool_object].
  replace (max_members a >=? 0) with false
    by (symmetry; apply not_true_is_false; rewrite Z.geb_le; lia).
  cbn [negb]. unfold bind at 1. unfold raise at 1.
  eexists _, _. split; [reflexivity |]. simpl.
  by rewrite Hr0, Hp0, Hn0.
Qed.

Lemma consistent_ObjectPool k a w :
  consistent w -> consistent (snd (ObjectPool k a w)).
Proof.
  intros [W S]. split; [by apply wf_ObjectPool |].
  destruct W as [Wp Wr].
  assert (Old : forall name i (ps : gmap nat Pool) x,
             registry w !! name = Some i ->
             exists p, <[next_pid w := x]> (pools w) !! i = Some p /\
                       klass_name (klass p) = name).
  { intros name i ps x H. destruct (S name i H) as (p & Hp & Hn).
    exists p. split; [| exact Hn].
    rewrite lookup_insert_ne; [exact Hp |]. apply Wp in Hp. lia. }
  destruct (force a) eqn:Hf; [| destruct (registry w !! klass_name k) eqn:Hr].
  2: { by rewrite (ObjectPool_cached k a _ w Hr Hf). }
  all: destruct (Z_lt_le_dec (max_members a) 0) as [Hm | Hm].
  all: try (destruct (ObjectPool_negative_world k a w Hm)
              as (e & w' & E & R & P); [by auto |];
            rewrite E; simpl;
            intros name i H; rewrite R in H; rewrite P;
            apply lookup_delete_Some in H as [_ H];
            by apply (Old name i ∅)).
  all: destruct (ObjectPool_constructs k a w Hm) as (q & w' & E & P & R & _);
    [by auto |].
  all: rewrite E; simpl; intros name i H; rewrite R in H; rewrite P.
  all: destruct (decide (klass_name k = name)) as [<- | Hne];
    [ rewrite lookup_insert_eq in H; injection H as <-;
      exists (pool_of k a q); split; [apply lookup_insert_eq | done]
    | rewrite lookup_insert_ne in H by done; by apply (Old name i ∅) ].
Qed.

Lemma consistent_destroy pid w :
  consistent w -> consistent (snd (destroy pid w)).
Proof.
  intros [W S]. split; [by apply wf_destroy |].
  destruct (destroy_frame pid w) as (R & O & K).
  intros name i H. apply R in H. destruct (S name i H) as (p & Hp & Hn).
  destruct (decide (i = pid)) as [-> | Hne].
  - destruct (K p Hp) as (p' & Hp' & Hc). exists p'. split; [exact Hp' |].
    by rewrite (same_config_klass p p' Hc).
  - exists p. by rewrite O.
Qed.

(** X14: the registry stays consistent with the store.  If every name in
    the registry leads to a pool in the store made for a class of that name
    (and the references are well formed), this is so again after
    [ObjectPool(k, ...)] with any arguments, after [get_member],
    [queue_member], a [with pool.get()] block and [destroy], whether they
    return or raise. *)
Theorem registry_stays_consistent k a pid m s w :
  consistent w ->
  consistent (snd (ObjectPool k a w)) /\
  consistent (snd (get_member pid w)) /\
  consistent (snd (queue_member pid m s w)) /\
  consistent (snd (cycle pid w)) /\
  consistent (snd (destroy pid w)).
Proof.
  intros C. split; [by apply consistent_ObjectPool |].
  destruct C as [W S].
  split; [split; [by apply wf_get_member |] |].
  { exact (confined_registry_sound pid _ w (confined_get_member pid) S). }
  split; [split; [by apply wf_queue_member |] |].
  { exact (confined_registry_sound pid _ w (confined_queue_member pid m s) S). }
  split; [split; [by apply wf_cycle |] |].
  { exact (confined_registry_sound pid _ w (confined_cycle pid) S). }
  by apply consistent_destroy.
Qed.

Lemma world_with_consistent p c : consistent (world_with p c).
Proof.
  split; [apply world_with_wf |].
  intros name pid H. unfold world_with in *. cbn [registry pools] in *.
  apply lookup_singleton_Some in H as [<- <-].
  exists p. split; [apply lookup_singleton_eq | done].
Qed.

Lemma registry_stays_consistent_witness :
  let w := world_with hooked_pool (steady 0) in
  consistent (snd (ObjectPool Browser forced_args w)) /\
  consistent (snd (get_member 0 w)) /\
  consistent (snd (queue_member 0 browser0 used_thrice w)) /\
  consistent (snd (cycle 0 w)) /\
  consistent (snd (destroy 0 w)).
Proof.
  intros w.
  apply (registry_stays_consistent Browser forced_args 0 browser0 used_thrice w).
  apply world_with_consistent.
Defined.

(** ** A borrow that fails, pools of different names, the count a client
    sees *)

Lemma check_and_get_type_error pid p m s w :
  pools w !! pid = Some p ->
  count s = None ->
  max_reusable_count p <> 0 ->
  exists w',
    __check_and_get_member pid m s w = (Raise TypeError, w') /\
    pools w' = pools w /\
    cleanups (calls w') = cleanups (calls w) /\
    next_oid w' = next_oid w.
Proof.
  intros Hp Hn HR. apply Z.eqb_neq in HR.
  unfold __check_and_get_member, judged_invalid,
    _internal_invalid_check, _get_expiry_time, int_lt_count.
  rewrite Hn.
  unfold bind, self, datetime_now, print, ret, raise, record_call.
  destruct w as [c no np ps rg cl out]; simpl in *.
  repeat first [rewrite Hp | progress simpl].
  destruct (pool_check_func p) as [f|];
    repeat first [rewrite Hp | progress simpl];
    destruct (created_at s) as [t0|];
    repeat first [rewrite Hp | rewrite HR | progress simpl];
    eexists; (split; [reflexivity |]); simpl;
    rewrite ?cleanups_app, ?app_nil_r; done.
Qed.

(** X15: with [pre_check] on and a limit of reuses, a borrow that finds the
    oldest pair without ['count'] raises a [TypeError] after the pair has
    been taken out: the pair is gone from the queue, nobody received it and
    the cleanup hook has not seen it; the [with] statement raises the same
    error and releases nothing. *)
Theorem failed_borrow_loses_member pid p m s q w :
  pools w !! pid = Some p ->
  pool_queue p = (m, s) :: q ->
  pre_check p = true ->
  count s = None ->
  max_reusable_count p <> 0 ->
  exists w',
    get_member pid w = (Raise TypeError, w') /\
    cycle pid w = (Raise TypeError, w') /\
    queue_of pid w' = Some q /\
    cleanups (calls w') = cleanups (calls w) /\
    next_oid w' = next_oid w.
Proof.
  intros Hp Hq Hpre Hn HR.
  pose proof (get_member_pre_check pid p m s q w Hp Hq Hpre) as G.
  set (w0 := set_pools (<[pid := with_queue q p]> (pools w)) w) in *.
  assert (Hp0 : pools w0 !! pid = Some (with_queue q p))
    by apply lookup_insert_eq.
  destruct (check_and_get_type_error pid _ m s w0 Hp0 Hn HR)
    as (w' & E & Hps & Hc & Ho).
  rewrite E in G. exists w'. split; [exact G |]. split.
  - rewrite cycle_borrow_release. by rewrite (bind_raise _ _ _ _ _ G).
  - split; [unfold queue_of; by rewrite Hps, Hp0 |]. done.
Qed.

Lemma failed_borrow_loses_member_witness :
  let w := world_with countless_pool (steady 5) in
  exists w',
    get_member 0 w = (Raise TypeError, w') /\
    cycle 0 w = (Raise TypeError, w') /\
    queue_of 0 w' = Some [(browser1, used_thrice)] /\
    cleanups (calls w') = cleanups (calls w) /\
    next_oid w' = next_oid w.
Proof.
  intros w.
  apply (failed_borrow_loses_member 0 countless_pool browser0
           stats_without_count [(browser1, used_thrice)] w);
    try reflexivity.
  discriminate.
Defined.

(** X16: pools of classes with different names do not interfere through
    the registry: whatever [ObjectPool(k2, ...)] does (return the
    registered pool, make one, or raise), the pool registered for [k1] is
    still registered, is what a call for [k1] without [force] returns, and
    is as it was. *)
Theorem other_names_untouched k1 k2 a1 a2 pid1 w :
  wf w ->
  klass_name k1 <> klass_name k2 ->
  registry w !! klass_name k1 = Some pid1 ->
  force a1 = false ->
  let w' := snd (ObjectPool k2 a2 w) in
  ObjectPool k1 a1 w' = (Ok pid1, w') /\
  pools w' !! pid1 = pools w !! pid1.
Proof.
  intros [Wp Wr] Hne Hr Hf w'.
  assert (H : registry w' !! klass_name k1 = Some pid1 /\
              pools w' !! pid1 = pools w !! pid1).
  { unfold w'. pose proof (Wr _ _ Hr) as Hlt.
    destruct (force a2) eqn:Hf2;
      [| destruct (registry w !! klass_name k2) eqn:Hr2].
    2: { by rewrite (ObjectPool_cached k2 a2 _ w Hr2 Hf2). }
    all: destruct (Z_lt_le_dec (max_members a2) 0) as [Hm | Hm].
    all: try (destruct (ObjectPool_negative_world k2 a2 w Hm)
                as (e & w1 & E & R & P); [by auto |];
              rewrite E; simpl; rewrite R, P;
              rewrite lookup_delete_ne by done;
              rewrite lookup_insert_ne by lia; done).
    all: destruct (ObjectPool_constructs k2 a2 w Hm)
      as (q & w1 & E & P & R & _); [by auto |].
    all: rewrite E; simpl; rewrite R, P.
    all: rewrite !lookup_insert_ne by (done || lia); done. }
  destruct H as [H1 H2]. split; [| exact H2].
  by apply ObjectPool_cached.
Qed.

Lemma other_names_untouched_witness :
  let w := world_with hooked_pool (steady 0) in
  let w' := snd (ObjectPool Hooked default_args w) in
  ObjectPool Browser default_args w' = (Ok 0%nat, w') /\
  pools w' !! 0%nat = pools w !! 0%nat.
Proof.
  intros w.
  apply (other_names_untouched Browser Hooked default_args default_args 0 w).
  - apply world_with_wf.
  - discriminate.
  - reflexivity.
  - reflexivity.
Defined.

(** X17: the count a client sees is the number of releases the member has
    been through.  Without [pre_check], after [k] blocks on a pool of one
    member that stayed within its limits, the next borrow hands out the same
    member with a count of [n + k], where [n] was its count at the start;
    the pool is empty while the member is out. *)
Theorem borrowed_count_is_number_of_releases pid p m s n k w :
  pools w !! pid = Some p ->
  pool_queue p = [(m, s)] ->
  count s = Some n ->
  pre_check p = false ->
  post_check p = true ->
  (forall s', check_verdict p m s' = false) ->
  n + Z.of_nat k <= max_reusable_count p + 1 ->
  ageless p s (clock w) ->
  exists s' w1 w2,
    cycles k pid w = (Ok tt, w1) /\
    get_member pid w1 = (Ok (m, s'), w2) /\
    count s' = Some (n + Z.of_nat k) /\
    get_pool_size pid w2 = (Ok 0, w2).
Proof.
  intros Hp Hq Hn Hpre Hpost Hc Hk Ha.
  assert (Hp' : pools w !! pid = Some (with_queue [(m, s)] p)).
  { rewrite Hp. f_equal. rewrite <- Hq. by destruct p. }
  destruct (cycles_valid pid p m k s n w Hp' Hpre Hpost Hn Hc Hk Ha)
    as (s' & w1 & E & Hp1 & Hn1 & _).
  exists s', w1. eexists. split; [exact E |].
  split; [by apply (get_member_queued pid _ (m, s') [] w1 Hp1) |].
  split; [exact Hn1 |].
  erewrite qsize_ok by apply lookup_insert_eq. reflexivity.
Qed.

Lemma borrowed_count_is_number_of_releases_witness :
  let w := world_with default_pool (steady 5) in
  exists s' w1 w2,
    cycles 4 0 w = (Ok tt, w1) /\
    get_member 0 w1 = (Ok (browser0, s'), w2) /\
    count s' = Some (3 + Z.of_nat 4) /\
    get_pool_size 0 w2 = (Ok 0, w2).
Proof.
  intros w.
  apply (borrowed_count_is_number_of_releases 0 default_pool browser0
           used_thrice 3 4 w); try reflexivity.
  - vm_compute. discriminate.
  - right. exists 0. split; [reflexivity |]. vm_compute.
    split; [discriminate | exact I].
Defined.
